(** * Loading dives from a git tree: a shallow embedding of [load-git.c]

    The loader walks a git tree in pre-order; everything it knows about trips
    and dives comes from the names of the directories and files it meets.  The
    two static pointers [active_dive] and [active_trip] of the C file become
    two slots of an explicit [state]; the records they point to live in two
    tables and are named by their index there. *)

From Stdlib Require Import ZArith Lia Bool Ascii.
From stdpp Require Import base tactics option list strings.

Local Open Scope Z_scope.

(** ** C strings and the libc calls the loader makes

    A [const char *] is the Rocq string of the bytes before its terminator.
    Reading at the index one past the last byte yields the terminator, as in C,
    and every function below stops at a zero byte the way its C original does. *)

Module CStr.

Definition NUL : ascii := Ascii.zero.

Definition code (c : ascii) : Z := Z.of_N (N_of_ascii c).

Definition is_nul (c : ascii) : bool := Ascii.eqb c NUL.

(** [isdigit] and [isspace] of <ctype.h>, C locale. *)
Definition isdigit (c : ascii) : bool := (48 <=? code c) && (code c <=? 57).

Definition isspace (c : ascii) : bool :=
  (code c =? 32) || ((9 <=? code c) && (code c <=? 13)).

Fixpoint nth_char (s : string) (n : nat) : ascii :=
  match s, n with
  | EmptyString, _ => NUL
  | String c _, O => c
  | String _ t, S n => nth_char t n
  end.

(** [s[i]]; the loader only reads indices between 0 and the length. *)
Definition char_at (s : string) (i : Z) : ascii :=
  if i <? 0 then NUL else nth_char s (Z.to_nat i).

Fixpoint drop_chars (n : nat) (s : string) : string :=
  match n, s with
  | O, _ => s
  | S n, String _ t => drop_chars n t
  | S _, EmptyString => EmptyString
  end.

(** The pointer [s + off]. *)
Definition str_from (s : string) (off : Z) : string := drop_chars (Z.to_nat off) s.

Fixpoint strlen (s : string) : Z :=
  match s with
  | EmptyString => 0
  | String c t => if is_nul c then 0 else 1 + strlen t
  end.

(** The bytes of a C string up to its terminator. *)
Fixpoint cstr (s : string) : string :=
  match s with
  | String c t => if is_nul c then EmptyString else String c (cstr t)
  | EmptyString => EmptyString
  end.

Definition head_char (s : string) : ascii :=
  match s with EmptyString => NUL | String c _ => c end.

Definition tail (s : string) : string :=
  match s with EmptyString => EmptyString | String _ t => t end.

(** [strncmp]: the difference of the first pair of bytes that differ among the
    first [n], comparison ending at a terminator. *)
Fixpoint strncmp (a b : string) (n : nat) : Z :=
  match n with
  | O => 0
  | S n =>
      let ca := head_char a in
      let cb := head_char b in
      if negb (Ascii.eqb ca cb) then code ca - code cb
      else if is_nul ca then 0
      else strncmp (tail a) (tail b) n
  end.

Definition strcmp (a b : string) : Z := strncmp a b (S (String.length a)).

(** *** Decimal conversions: [atoi] and the [%d] of [sscanf]

    Both skip white space, take an optional sign and then the longest run of
    digits.  A value that does not fit an [int] is undefined behaviour in C;
    what the platform stores then is the parameter [overflow]. *)

Definition INT_MIN : Z := - 2147483648.
Definition INT_MAX : Z := 2147483647.

Definition to_int (overflow : Z -> Z) (v : Z) : Z :=
  if (INT_MIN <=? v) && (v <=? INT_MAX) then v else overflow v.

Fixpoint skip_space (s : string) : string :=
  match s with
  | String c t => if isspace c then skip_space t else s
  | EmptyString => s
  end.

Definition digit_value (c : ascii) : Z := code c - 48.

(** The run of digits at the head of [s], accumulated onto [acc], and what
    follows the run. *)
Fixpoint scan_digits (s : string) (acc : Z) : Z * string :=
  match s with
  | String c t => if isdigit c then scan_digits t (acc * 10 + digit_value c) else (acc, s)
  | EmptyString => (acc, s)
  end.

(** One [%d] conversion: [None] when no digit is found where one must be. *)
Definition scan_int (overflow : Z -> Z) (s : string) : option (Z * string) :=
  let s := skip_space s in
  let neg := Ascii.eqb (head_char s) "-" in
  let s := if neg || Ascii.eqb (head_char s) "+" then tail s else s in
  if isdigit (head_char s) then
    let '(v, rest) := scan_digits s 0 in
    Some (to_int overflow (if neg then - v else v), rest)
  else None.

Definition atoi (overflow : Z -> Z) (s : string) : Z :=
  match scan_int overflow s with
  | Some (v, _) => v
  | None => 0
  end.

(** A literal character of a [sscanf] format. *)
Definition scan_lit (c : ascii) (s : string) : option string :=
  match s with
  | String c' t => if Ascii.eqb c' c then Some t else None
  | EmptyString => None
  end.

(** What [sscanf] returns when its first conversion fails: [EOF] when the
    input ran out before it, zero otherwise. *)
Definition EOF : Z := -1.

Definition no_conversion (s : string) : Z :=
  if is_nul (head_char (skip_space s)) then EOF else 0.

(** [sscanf(s, "%d/%d", &a, &b)]: the number of conversions made and the two
    values, a value not converted being left as it was ([a0], [b0]). *)
Definition sscanf_d_slash_d (overflow : Z -> Z) (s : string) (a0 b0 : Z) : Z * (Z * Z) :=
  match scan_int overflow s with
  | None => (no_conversion s, (a0, b0))
  | Some (a, s) =>
      match scan_lit "/" s with
      | None => (1, (a, b0))
      | Some s =>
          match scan_int overflow s with
          | None => (1, (a, b0))
          | Some (b, _) => (2, (a, b))
          end
      end
  end.

(** [sscanf(s, "%d:%d:%d", &h, &m, &s)]: the count, and the three values when
    all three were converted (the loader reads them in no other case). *)
Definition sscanf_d_colon_d_colon_d (overflow : Z -> Z) (s : string) : Z * (Z * Z * Z) :=
  match scan_int overflow s with
  | None => (no_conversion s, (0, 0, 0))
  | Some (h, s) =>
      match scan_lit ":" s with
      | None => (1, (h, 0, 0))
      | Some s =>
          match scan_int overflow s with
          | None => (1, (h, 0, 0))
          | Some (m, s) =>
              match scan_lit ":" s with
              | None => (2, (h, m, 0))
              | Some s =>
                  match scan_int overflow s with
                  | None => (2, (h, m, 0))
                  | Some (sec, _) => (3, (h, m, sec))
                  end
              end
          end
      end
  end.

End CStr.

Import CStr.

(** ** Validators *)

Definition validate_date (yyyy mm dd : Z) : bool :=
  (yyyy >? 1970) && (yyyy <? 3000) &&
  (mm >? 0) && (mm <? 13) &&
  (dd >? 0) && (dd <? 32).

Definition validate_time (h m s : Z) : bool :=
  (h >=? 0) && (h <? 24) &&
  (m >=? 0) && (m <? 60) &&
  (s >=? 0) && (s <=? 60).

(** ** Data model *)

Definition GIT_WALK_OK : Z := 0.
Definition GIT_WALK_SKIP : Z := 1.

(** The fields of [struct tm] the loader fills in. *)
Record tm := {
  tm_sec : Z;
  tm_min : Z;
  tm_hour : Z;
  tm_mday : Z;
  tm_mon : Z;
  tm_year : Z;
}.

(** [struct dive], as far as the loader touches it.  A [dive_trip_t *] is the
    index of the trip among the trips allocated so far. *)
Record dive := {
  when : Z;
  number : Z;
  divetrip : option nat;
}.

(** [dive_trip_t]: its date and the dives attached to it, oldest first; a
    [struct dive *] is the index of the dive in the dive table. *)
Record dive_trip := {
  trip_when : Z;
  trip_dives : list nat;
}.

(** What [report_error] is called with. *)
Inductive diagnostic :=
| Unable_to_read_divecomputer_file
| Unable_to_read_dive_file
| Unable_to_read_trip_file
| Unknown_file (root name : string) (dive trip : option nat)
| Unable_to_look_up_branch (branch : option string)
| Could_not_look_up_tree (branch : option string)
| Unable_to_open_git_repository (loc : string) (branch : option string).

(** The two statics of the file together with the store they point into. *)
Record state := {
  dive_table : list dive;
  trip_heap : list dive_trip;
  active_dive : option nat;
  active_trip : option nat;
  errors : list diagnostic;
}.

Definition initial_state : state :=
  {| dive_table := []; trip_heap := []; active_dive := None; active_trip := None;
     errors := [] |}.

Definition set_active_dive (p : option nat) (st : state) : state :=
  {| dive_table := dive_table st; trip_heap := trip_heap st; active_dive := p;
     active_trip := active_trip st; errors := errors st |}.

Definition set_active_trip (p : option nat) (st : state) : state :=
  {| dive_table := dive_table st; trip_heap := trip_heap st;
     active_dive := active_dive st; active_trip := p; errors := errors st |}.

Definition set_dive_table (t : list dive) (st : state) : state :=
  {| dive_table := t; trip_heap := trip_heap st; active_dive := active_dive st;
     active_trip := active_trip st; errors := errors st |}.

Definition set_trip_heap (h : list dive_trip) (st : state) : state :=
  {| dive_table := dive_table st; trip_heap := h; active_dive := active_dive st;
     active_trip := active_trip st; errors := errors st |}.

Definition set_number (n : Z) (d : dive) : dive :=
  {| when := when d; number := n; divetrip := divetrip d |}.

Definition non_null (p : option nat) : bool :=
  match p with Some _ => true | None => false end.

#[local] Set Warnings "-register-all".

(** A git tree: a blob entry carries what [git_blob_lookup] finds for it
    ([None] when the lookup fails), a tree entry its children in the order the
    walker meets them. *)
Inductive git_tree_entry :=
| Blob (name : string) (blob : option string)
| Tree (name : string) (entries : list git_tree_entry).

Definition git_tree_entry_name (entry : git_tree_entry) : string :=
  match entry with Blob name _ | Tree name _ => name end.

Definition git_tree_entry_blob (entry : git_tree_entry) : option string :=
  match entry with Blob _ blob => blob | Tree _ _ => None end.

(** A branch reference peels to a tree or fails to; a repository resolves
    branch names ([None] for the [NULL] that [strrchr] leaves when the location
    names no branch). *)
Record git_reference := { git_reference_peel : option (list git_tree_entry) }.

Record git_repository := {
  git_branch_lookup : option string -> option git_reference;
}.

(** What the loader calls and this file does not define. *)
Class Externals := {
  (** [utc_mktime] of time.c *)
  utc_mktime : tm -> Z;
  (** the [int] a decimal conversion stores for a value out of range *)
  int_overflow : Z -> Z;
  (** [git_repository_open]: [None] when it fails *)
  git_repository_open : string -> option git_repository;
}.

(** Modelled from the spec: [alloc_dive] (dive.c), which is not among the
    sources; it hands out a Record with nothing set: no timestamp, no ordinal,
    no Group. *)
Definition alloc_dive : dive := {| when := 0; number := 0; divetrip := None |}.

(** Modelled from the spec: [add_dive_to_trip] (dive.c), "attach a Record to a
    Group": the Record becomes a member of the Group, last in its ordered
    collection of members. *)
Definition add_dive_to_trip (id : nat) (d : dive) (trip : nat) (st : state) : dive * state :=
  ({| when := when d; number := number d; divetrip := Some trip |},
   set_trip_heap
     (alter (fun t => {| trip_when := trip_when t; trip_dives := trip_dives t ++ [id] |})
            trip (trip_heap st)) st).

(** Modelled from the spec: [record_dive] (dive.c), "register a completed
    Record": the Record is appended to the table of dives. *)
Definition record_dive (d : dive) (st : state) : state :=
  set_dive_table (dive_table st ++ [d]) st.

(** Modelled from the spec: [report_error], which records the diagnostic and
    yields the failure status, a non-zero value. *)
Definition report_error (d : diagnostic) (st : state) : Z * state :=
  (-1,
   {| dive_table := dive_table st; trip_heap := trip_heap st;
      active_dive := active_dive st; active_trip := active_trip st;
      errors := errors st ++ [d] |}).

(** ** The loader *)

Section Loader.

Context {E : Externals}.

(** The new dive is the next entry of the dive table: that index is its
    address from here on. *)
Definition create_new_dive (when : Z) (st : state) : nat * state :=
  let id := length (dive_table st) in
  let dive := {| when := when; number := number alloc_dive; divetrip := divetrip alloc_dive |} in
  let '(dive, st) :=
    match active_trip st with
    | Some trip => add_dive_to_trip id dive trip st
    | None => (dive, st)
    end in
  (id, record_dive dive st).

Definition create_new_trip (yyyy mm dd : Z) (st : state) : nat * state :=
  let tm := {| tm_sec := 0; tm_min := 0; tm_hour := 0;
               tm_mday := dd; tm_mon := mm - 1; tm_year := yyyy |} in
  let trip := {| trip_when := utc_mktime tm; trip_dives := [] |} in
  (length (trip_heap st), set_trip_heap (trip_heap st ++ [trip]) st).

(** Dive trip directory, name is 'nn-alphabetic[~hex]'. *)
Definition dive_trip_directory (root name : string) (st : state) : Z * state :=
  let '(n, (yyyy, mm)) := sscanf_d_slash_d int_overflow root (-1) (-1) in
  if negb (n =? 2) then (GIT_WALK_SKIP, st) else
  let dd := atoi int_overflow name in
  if negb (validate_date yyyy mm dd) then (GIT_WALK_SKIP, st) else
  let '(trip, st) := create_new_trip yyyy mm dd st in
  (GIT_WALK_OK, set_active_trip (Some trip) st).

(** Dive directory, name is [[yyyy-]mm-]nn-ddd-hh:mm:ss[~hex], and [timeoff]
    points to what should be the time part of the name. *)
Definition dive_directory (root name : string) (timeoff : Z) (st : state) : Z * state :=
  let mday_off := timeoff - 7 in
  let month_off := mday_off - 3 in
  let year_off := month_off - 5 in
  (* There has to be a mday *)
  if mday_off <? 0 then (GIT_WALK_SKIP, st) else
  if negb (Ascii.eqb (char_at name (timeoff - 1)) "-") then (GIT_WALK_SKIP, st) else
  (* Get the time of day *)
  let '(n, (h, m, s)) := sscanf_d_colon_d_colon_d int_overflow (str_from name timeoff) in
  if negb (n =? 3) then (GIT_WALK_SKIP, st) else
  if negb (validate_time h m s) then (GIT_WALK_SKIP, st) else
  (* The magic '8' is the length of a pathname of the form 'yyyy/mm/' *)
  let st := if strlen root =? 8 then set_active_trip None st else st in
  (* Get the date *)
  let dd := atoi int_overflow (str_from name mday_off) in
  let date :=
    if year_off <? 0 then
      let '(n, (yyyy, mm)) := sscanf_d_slash_d int_overflow root (-1) (-1) in
      if negb (n =? 2) then None else Some (yyyy, mm)
    else Some (atoi int_overflow (str_from name year_off), -1) in
  match date with
  | None => (GIT_WALK_SKIP, st)
  | Some (yyyy, mm) =>
      let mm := if month_off >=? 0 then atoi int_overflow (str_from name month_off) else mm in
      if negb (validate_date yyyy mm dd) then (GIT_WALK_SKIP, st) else
      (* Ok, close enough. We've gotten sufficient information *)
      let tm := {| tm_sec := s; tm_min := m; tm_hour := h;
                   tm_mday := dd; tm_mon := mm - 1; tm_year := yyyy - 1900 |} in
      let '(dive, st) := create_new_dive (utc_mktime tm) st in
      (GIT_WALK_OK, set_active_dive (Some dive) st)
  end.

(** Return the length of the string without the unique part. *)
Fixpoint nonunique_length (str : string) : Z :=
  match str with
  | EmptyString => 0
  | String c t => if is_nul c || Ascii.eqb c "~" then 0 else 1 + nonunique_length t
  end.

(** The loop [while (isdigit(c = name[digits])) digits++]. *)
Fixpoint count_digits (name : string) : Z :=
  match name with
  | String c t => if isdigit c then 1 + count_digits t else 0
  | EmptyString => 0
  end.

Definition walk_tree_directory (root : string) (entry : git_tree_entry) (st : state) : Z * state :=
  let name := git_tree_entry_name entry in
  let digits := count_digits name in
  let c := char_at name digits in
  (* Doesn't start with two or four digits? Skip *)
  if negb (digits =? 4) && negb (digits =? 2) then (GIT_WALK_SKIP, st) else
  (* Only digits? Do nothing, but recurse into it *)
  if is_nul c then (GIT_WALK_OK, st) else
  (* All valid cases need to have a slash following *)
  if negb (Ascii.eqb c "-") then (GIT_WALK_SKIP, st) else
  (* Do a quick check for a common dive case *)
  let len := nonunique_length name in
  if Ascii.eqb (char_at name (len - 3)) ":" then dive_directory root name (len - 8) st else
  if negb (digits =? 2) then (GIT_WALK_SKIP, st) else
  dive_trip_directory root name st.

Definition parse_divecomputer_entry (entry : git_tree_entry) (suffix : string) (st : state) : Z * state :=
  match git_tree_entry_blob entry with
  | None => report_error Unable_to_read_divecomputer_file st
  | Some _ => (0, st)
  end.

(** [dive->number = v] through the pointer [dive]; the caller has checked that
    the pointer is not [NULL]. *)
Definition store_number (dive : option nat) (v : Z) (st : state) : state :=
  match dive with
  | Some i => set_dive_table (alter (set_number v) i (dive_table st)) st
  | None => st
  end.

Definition parse_dive_entry (entry : git_tree_entry) (suffix : string) (st : state) : Z * state :=
  let dive := active_dive st in
  match git_tree_entry_blob entry with
  | None => report_error Unable_to_read_dive_file st
  | Some _ =>
      let st :=
        if negb (is_nul (head_char suffix))
        then store_number dive (atoi int_overflow (str_from suffix 1)) st
        else st in
      (0, st)
  end.

Definition parse_trip_entry (entry : git_tree_entry) (st : state) : Z * state :=
  match git_tree_entry_blob entry with
  | None => report_error Unable_to_read_trip_file st
  | Some _ => (0, st)
  end.

Definition walk_tree_file (root : string) (entry : git_tree_entry) (st : state) : Z * state :=
  let dive := active_dive st in
  let trip := active_trip st in
  let name := git_tree_entry_name entry in
  if non_null dive && (strncmp name "Divecomputer" 12 =? 0) then
    parse_divecomputer_entry entry (str_from name 12) st
  else if non_null dive && (strncmp name "Dive" 4 =? 0) then
    parse_dive_entry entry (str_from name 4) st
  else if non_null trip && (strcmp name "00-Trip" =? 0) then
    parse_trip_entry entry st
  else
    let '(_, st) := report_error (Unknown_file root name dive trip) st in
    (GIT_WALK_SKIP, st).

Definition walk_tree_cb (root : string) (entry : git_tree_entry) (st : state) : Z * state :=
  match entry with
  | Tree _ _ => walk_tree_directory root entry st
  | Blob _ _ =>
      let '(_, st) := walk_tree_file root entry st in
      (* Ignore failed blob loads *)
      (GIT_WALK_OK, st)
  end.

End Loader.

(** ** The tree walk of libgit2 and the top of the loader *)

Module Git.

Definition GIT_EUSER : Z := -7.

(** The entries of one tree, in order, until one of them reports an error. *)
Definition walk_entries (walk_entry : git_tree_entry -> state -> Z * state) :
    list git_tree_entry -> state -> Z * state :=
  fix go (entries : list git_tree_entry) (st : state) : Z * state :=
    match entries with
    | [] => (0, st)
    | entry :: rest =>
        let '(error, st) := walk_entry entry st in
        if negb (error =? 0) then (error, st) else go rest st
    end.

(** One entry of a pre-order [git_tree_walk]: the callback sees the entry
    first; a negative answer stops the walk, a positive one skips the entry
    (for a tree: its whole subtree), zero lets the walk descend into a tree
    with the entry's name and a slash added to the path. *)
Fixpoint walk_entry (callback : string -> git_tree_entry -> state -> Z * state)
    (path : string) (entry : git_tree_entry) (st : state) : Z * state :=
  let '(error, st) := callback path entry st in
  if error <? 0 then (GIT_EUSER, st)
  else if error >? 0 then (0, st)
  else
    match entry with
    | Blob _ _ => (0, st)
    | Tree name entries =>
        walk_entries (walk_entry callback (path +:+ name +:+ "/")) entries st
    end.

(** [git_tree_walk(tree, GIT_TREEWALK_PRE, callback, payload)]. *)
Definition git_tree_walk (tree : list git_tree_entry)
    (callback : string -> git_tree_entry -> state -> Z * state) (st : state) : Z * state :=
  walk_entries (walk_entry callback "") tree st.

End Git.

Import Git.

Section TopLevel.

Context {E : Externals}.

Definition load_dives_from_tree (tree : list git_tree_entry) (st : state) : Z * state :=
  let '(_, st) := git_tree_walk tree walk_tree_cb st in
  (0, st).

Definition do_git_load (repo : git_repository) (branch : option string) (st : state) : Z * state :=
  match git_branch_lookup repo branch with
  | None => report_error (Unable_to_look_up_branch branch) st
  | Some ref =>
      match git_reference_peel ref with
      | None => report_error (Could_not_look_up_tree branch) st
      | Some tree => load_dives_from_tree tree st
      end
  end.

(** Trim whitespace from the end. *)
Fixpoint rtrim (s : string) : string :=
  match s with
  | EmptyString => EmptyString
  | String c t =>
      match rtrim t with
      | EmptyString => if isspace c then EmptyString else String c EmptyString
      | t' => String c t'
      end
  end.

(** [strrchr(s, c)] followed by [*p++ = 0]: what stands before the last [c]
    and what stands after it. *)
Fixpoint split_last (c : ascii) (s : string) : option (string * string) :=
  match s with
  | EmptyString => None
  | String c' t =>
      match split_last c t with
      | Some (before, after) => Some (String c' before, after)
      | None => if Ascii.eqb c' c then Some (EmptyString, t) else None
      end
  end.

Definition git_load_dives (where_ : string) (st : state) : Z * state :=
  (* Jump over the "git" marker *)
  let loc := skip_space (str_from where_ 3) in
  (* Trim whitespace from the end *)
  let loc := rtrim (cstr loc) in
  (* Find a branch name if there is any *)
  let '(loc, branch) :=
    match split_last ":" loc with
    | Some (loc, branch) => (loc, Some branch)
    | None => (loc, None)
    end in
  match git_repository_open loc with
  | None => report_error (Unable_to_open_git_repository loc branch) st
  | Some repo => do_git_load repo branch st
  end.

End TopLevel.

(** ** The timestamp of a calendar date *)

(** Days from 1970-01-01 to the given day of the proleptic Gregorian calendar. *)
Definition days_from_civil (y m d : Z) : Z :=
  let y := if m <=? 2 then y - 1 else y in
  let era := y / 400 in
  let yoe := y - era * 400 in
  let doy := (153 * (if m >? 2 then m - 3 else m + 9) + 2) / 5 + d - 1 in
  let doe := yoe * 365 + yoe / 4 - yoe / 100 + doy in
  era * 146097 + doe - 719468.

(** Seconds from the epoch to the given date and time of day, UTC. *)
Definition utc_seconds (y mo d h mi s : Z) : Z :=
  days_from_civil y mo d * 86400 + h * 3600 + mi * 60 + s.

(** Modelled from the spec: [utc_mktime] (time.c), which is not among the
    sources.  The spec gives the timestamp of a Record as its decoded date and
    time in UTC, and the anchor of a Group as midnight UTC of its calendar
    date.  [dive_directory] hands over the year counted from 1900 and
    [create_new_trip] the year itself, so the model reads a year field above
    1900 as the year and any other as years since 1900; months count from 0. *)
Definition utc_mktime_spec (t : tm) : Z :=
  let year := if tm_year t >? 1900 then tm_year t else tm_year t + 1900 in
  utc_seconds year (tm_mon t + 1) (tm_mday t) (tm_hour t) (tm_min t) (tm_sec t).

(** A store with no repository in it. *)
Definition no_store (loc : string) : option git_repository := None.

(** The externals with the timestamp function of the spec; out-of-range
    conversions wrap around to 32 bits. *)
Definition spec_externals (open : string -> option git_repository) : Externals :=
  {| utc_mktime := utc_mktime_spec;
     int_overflow := fun v => (v + 2147483648) mod 4294967296 - 2147483648;
     git_repository_open := open |}.

(** ** What a directory name decodes to

    The grammar of the names, stated on its own: the classes of directory
    names, and the fields a trip or dive directory carries.  The theorems below
    relate these to what [walk_tree_directory] does. *)

Fixpoint all_digits (s : string) : bool :=
  match s with
  | EmptyString => true
  | String c t => isdigit c && all_digits t
  end.

(** A bare year or month: nothing but digits, two or four of them. *)
Definition transparent_name (name : string) : Prop :=
  all_digits (cstr name) = true /\ (strlen name = 2 \/ strlen name = 4).

(** Not two or four leading digits, or a character other than '-' after them. *)
Definition rejected_name (name : string) : Prop :=
  let digits := count_digits name in
  (digits <> 2 /\ digits <> 4) \/
  (char_at name digits <> NUL /\ char_at name digits <> "-"%char).

(** Two or four leading digits and a '-': a trip or a dive directory is tried. *)
Definition decode_name (name : string) : Prop :=
  let digits := count_digits name in
  (digits = 2 \/ digits = 4) /\ char_at name digits = "-"%char.

(** The ':' three characters before the end of the name without its unique
    part. *)
Definition colon_at_time (name : string) : bool :=
  Ascii.eqb (char_at name (nonunique_length name - 3)) ":".

Definition decode_candidate (name : string) : bool :=
  let digits := count_digits name in
  ((digits =? 2) || (digits =? 4)) && Ascii.eqb (char_at name digits) "-".

(** A dive directory whose fields get decoded. *)
Definition record_candidate (name : string) : bool :=
  let len := nonunique_length name in
  decode_candidate name && colon_at_time name &&
  (15 <=? len) && Ascii.eqb (char_at name (len - 9)) "-".

(** A trip directory whose fields get decoded. *)
Definition trip_candidate (name : string) : bool :=
  (count_digits name =? 2) && Ascii.eqb (char_at name 2) "-" && negb (colon_at_time name).

Record decoded_date := { dyear : Z; dmonth : Z; dday : Z }.

Record decoded_clock := { dhour : Z; dminute : Z; dsecond : Z }.

Definition date_ok (d : decoded_date) : bool := validate_date (dyear d) (dmonth d) (dday d).

Definition clock_ok (c : decoded_clock) : bool := validate_time (dhour c) (dminute c) (dsecond c).

(** The broken-down time handed to [utc_mktime] for a dive. *)
Definition dive_tm (d : decoded_date) (c : decoded_clock) : tm :=
  {| tm_sec := dsecond c; tm_min := dminute c; tm_hour := dhour c;
     tm_mday := dday d; tm_mon := dmonth d - 1; tm_year := dyear d - 1900 |}.

(** The broken-down time handed to [utc_mktime] for a trip. *)
Definition trip_tm (d : decoded_date) : tm :=
  {| tm_sec := 0; tm_min := 0; tm_hour := 0;
     tm_mday := dday d; tm_mon := dmonth d - 1; tm_year := dyear d |}.

Section Decoding.

Context {E : Externals}.

(** The time of day in a dive directory's name. *)
Definition decoded_time (name : string) : option decoded_clock :=
  let '(n, (h, m, s)) :=
    sscanf_d_colon_d_colon_d int_overflow (str_from name (nonunique_length name - 8)) in
  if n =? 3 then Some {| dhour := h; dminute := m; dsecond := s |} else None.

(** Year and month at the head of the path. *)
Definition path_year_month (root : string) : option (Z * Z) :=
  let '(n, ym) := sscanf_d_slash_d int_overflow root (-1) (-1) in
  if n =? 2 then Some ym else None.

(** The date of a dive directory: the day from the name, month and year from
    the name when it is long enough to hold them, from the path otherwise. *)
Definition decoded_dive_date (root name : string) : option decoded_date :=
  let len := nonunique_length name in
  let dd := atoi int_overflow (str_from name (len - 15)) in
  let from_name (default : Z) :=
    if 18 <=? len then atoi int_overflow (str_from name (len - 18)) else default in
  if len <? 23 then
    match path_year_month root with
    | Some (yyyy, mm) => Some {| dyear := yyyy; dmonth := from_name mm; dday := dd |}
    | None => None
    end
  else
    Some {| dyear := atoi int_overflow (str_from name (len - 23));
            dmonth := from_name (-1); dday := dd |}.

(** The date of a trip directory: the day from the name, the rest from the
    path. *)
Definition decoded_trip_date (root name : string) : option decoded_date :=
  match path_year_month root with
  | Some (yyyy, mm) => Some {| dyear := yyyy; dmonth := mm; dday := atoi int_overflow name |}
  | None => None
  end.

(** A dive directory that decodes and passes both validators. *)
Definition validated_record (root name : string) (d : decoded_date) (c : decoded_clock) : Prop :=
  record_candidate name = true /\
  decoded_time name = Some c /\ clock_ok c = true /\
  decoded_dive_date root name = Some d /\ date_ok d = true.

(** A trip directory that decodes and passes the validator. *)
Definition validated_trip (root name : string) (d : decoded_date) : Prop :=
  trip_candidate name = true /\
  decoded_trip_date root name = Some d /\ date_ok d = true.

(** The ways a decoded directory fails validation; the flag tells whether
    the time of a dive directory had been accepted when the date failed. *)
Inductive validation_failure (root name : string) : bool -> Prop :=
| Time_fails c :
    record_candidate name = true ->
    decoded_time name = Some c -> clock_ok c = false ->
    validation_failure root name false
| Dive_date_fails c d :
    record_candidate name = true ->
    decoded_time name = Some c -> clock_ok c = true ->
    decoded_dive_date root name = Some d -> date_ok d = false ->
    validation_failure root name true
| Trip_date_fails d :
    trip_candidate name = true ->
    decoded_trip_date root name = Some d -> date_ok d = false ->
    validation_failure root name false.

(** The reset that [dive_directory] makes at the depth of 'yyyy/mm/'. *)
Definition reset_at_depth_8 (root : string) (st : state) : state :=
  if strlen root =? 8 then set_active_trip None st else st.

(** The state after a dive with timestamp [w] was created and made active. *)
Definition with_new_dive (w : Z) (st : state) : state :=
  let '(dive, st) := create_new_dive w st in set_active_dive (Some dive) st.

(** The state after a trip for the date was created and made active. *)
Definition with_new_trip (d : decoded_date) (st : state) : state :=
  let '(trip, st) := create_new_trip (dyear d) (dmonth d) (dday d) st in
  set_active_trip (Some trip) st.

End Decoding.

(** ** Names as they are written

    The names of the grammar, built from the fields they carry: decimal
    fields of fixed width, each followed by what comes next in the name. *)

Definition digit_char (k : Z) : ascii := ascii_of_N (Z.to_N (48 + k mod 10)).

Definition two_digits (n : Z) (rest : string) : string :=
  String (digit_char (n / 10)) (String (digit_char n) rest).

Definition four_digits (n : Z) (rest : string) : string :=
  String (digit_char (n / 1000)) (String (digit_char (n / 100)) (two_digits n rest)).

(** A character that ends neither the name nor its part before the unique
    suffix. *)
Definition plain_char (c : ascii) : bool := negb (is_nul c || Ascii.eqb c "~").

(** The unique part of a name: nothing, or '~' and whatever follows. *)
Definition unique_part (u : string) : bool :=
  match u with
  | EmptyString => true
  | String c _ => Ascii.eqb c "~"
  end.

(** 'hh:mm:ss[~hex]' *)
Definition clock_name (c : decoded_clock) (uniq : string) : string :=
  two_digits (dhour c) (String ":" (two_digits (dminute c) (String ":"
    (two_digits (dsecond c) uniq)))).

(** 'nn-ddd-hh:mm:ss[~hex]', the three characters of 'ddd' being free. *)
Definition day_name (dd : Z) (t1 t2 t3 : ascii) (c : decoded_clock) (uniq : string) : string :=
  two_digits dd (String "-" (String t1 (String t2 (String t3 (String "-"
    (clock_name c uniq)))))).

(** 'yyyy-mm-nn-ddd-hh:mm:ss[~hex]' *)
Definition full_name (d : decoded_date) (t1 t2 t3 : ascii) (c : decoded_clock)
    (uniq : string) : string :=
  four_digits (dyear d) (String "-" (two_digits (dmonth d) (String "-"
    (day_name (dday d) t1 t2 t3 c uniq)))).

(** A path that starts 'yyyy/mm'. *)
Definition year_month_path (yyyy mm : Z) (rest : string) : string :=
  four_digits yyyy (String "/" (two_digits mm rest)).

(** 'nn-' and the rest of a trip directory's name. *)
Definition trip_name (dd : Z) (rest : string) : string :=
  two_digits dd (String "-" rest).

Fixpoint no_colon (s : string) : bool :=
  match s with
  | EmptyString => true
  | String c t => negb (Ascii.eqb c ":") && no_colon t
  end.

(** The externals used where a theorem is applied to a concrete tree. *)
Definition E0 : Externals := spec_externals no_store.

(** A state as the walk leaves it after the trip directory '2023/07/13-trip':
    one trip, and that trip active. *)
Definition state_in_trip : state :=
  {| dive_table := [];
     trip_heap := [{| trip_when := 1689206400; trip_dives := [] |}];
     active_dive := None; active_trip := Some 0%nat; errors := [] |}.

(** A state with one dive, which is active: what the walk leaves after the
    dive directory '2023/07/15-001-10:30:00' and its file 'Dive-7'. *)
Definition state_in_dive : state :=
  {| dive_table := [{| when := 1689417000; number := 7; divetrip := None |}];
     trip_heap := []; active_dive := Some 0%nat; active_trip := None; errors := [] |}.

Section Location.

Context {E : Externals}.

(** The repository location and the branch named by the argument of
    [git_load_dives]. *)
Definition split_location (where_ : string) : string * option string :=
  let loc := rtrim (cstr (skip_space (str_from where_ 3))) in
  match split_last ":" loc with
  | Some (loc, branch) => (loc, Some branch)
  | None => (loc, None)
  end.

(** The ways the resolution of a location to a tree fails, each with the
    diagnostic it is reported with. *)
Inductive resolution_failure (where_ : string) : diagnostic -> Prop :=
| Open_fails :
    git_repository_open (fst (split_location where_)) = None ->
    resolution_failure where_
      (Unable_to_open_git_repository (fst (split_location where_)) (snd (split_location where_)))
| Branch_lookup_fails repo :
    git_repository_open (fst (split_location where_)) = Some repo ->
    git_branch_lookup repo (snd (split_location where_)) = None ->
    resolution_failure where_ (Unable_to_look_up_branch (snd (split_location where_)))
| Peel_fails repo ref :
    git_repository_open (fst (split_location where_)) = Some repo ->
    git_branch_lookup repo (snd (split_location where_)) = Some ref ->
    git_reference_peel ref = None ->
    resolution_failure where_ (Could_not_look_up_tree (snd (split_location where_))).

End Location.

(** The state with one more diagnostic. *)
Definition with_error (d : diagnostic) (st : state) : state := snd (report_error d st).

(** Two or four digits and nothing else: the boolean form of
    [transparent_name]. *)
Definition transparent_b (name : string) : bool :=
  let digits := count_digits name in
  ((digits =? 2) || (digits =? 4)) && is_nul (char_at name digits).

(** ** The visits, apart from the state they act on *)

(** What the visit of a directory does to the state. *)
Inductive dir_effect :=
| Keep
| Reset
| New_dive (w : Z)
| New_trip (d : decoded_date).

Section Visits.

Context {E : Externals}.

Definition apply_effect (root : string) (f : dir_effect) (st : state) : state :=
  match f with
  | Keep => st
  | Reset => reset_at_depth_8 root st
  | New_dive w => with_new_dive w (reset_at_depth_8 root st)
  | New_trip d => with_new_trip d st
  end.

(** The answer of the directory callback and its effect, from the path and
    the name alone. *)
Definition directory_effect (root name : string) : Z * dir_effect :=
  if record_candidate name then
    match decoded_time name with
    | None => (GIT_WALK_SKIP, Keep)
    | Some c =>
        if clock_ok c then
          match decoded_dive_date root name with
          | None => (GIT_WALK_SKIP, Reset)
          | Some d =>
              if date_ok d then (GIT_WALK_OK, New_dive (utc_mktime (dive_tm d c)))
              else (GIT_WALK_SKIP, Reset)
          end
        else (GIT_WALK_SKIP, Keep)
    end
  else if trip_candidate name then
    match decoded_trip_date root name with
    | None => (GIT_WALK_SKIP, Keep)
    | Some d => if date_ok d then (GIT_WALK_OK, New_trip d) else (GIT_WALK_SKIP, Keep)
    end
  else (if transparent_b name then GIT_WALK_OK else GIT_WALK_SKIP, Keep).

(** The number a file gives to the active dive, when it gives one. *)
Definition number_written (entry : git_tree_entry) : option Z :=
  let name := git_tree_entry_name entry in
  if strncmp name "Divecomputer" 12 =? 0 then None
  else if strncmp name "Dive" 4 =? 0 then
    match git_tree_entry_blob entry with
    | None => None
    | Some _ =>
        if is_nul (head_char (str_from name 4)) then None
        else Some (atoi int_overflow (str_from (str_from name 4) 1))
    end
  else None.

End Visits.

(** ** Two walks of one tree

    The state of a second walk, compared with the state of the first at the
    same point of the tree: the second walk started with [kd] dives and [kt]
    trips in the tables, and with [stale_d] and [stale_t] in the two slots. *)

Definition dive_matches (kt : nat) (stale_t : option nat) (d d' : dive) : Prop :=
  when d' = when d /\ number d' = number d /\
  match divetrip d with
  | Some t => divetrip d' = Some (kt + t)%nat
  | None => divetrip d' = None \/ divetrip d' = stale_t
  end.

Definition trip_matches (kd : nat) (g g' : dive_trip) : Prop :=
  trip_when g' = trip_when g /\
  trip_dives g' = (fun i => (kd + i)%nat) <$> trip_dives g.

Definition slot_matches (k : nat) (stale : option nat) (p p' : option nat) : Prop :=
  match p with
  | Some i => p' = Some (k + i)%nat
  | None => p' = None \/ p' = stale
  end.

Inductive rewalk (kd kt : nat) (stale_d stale_t : option nat) (b s : state) : Prop :=
| Rewalk old_dives new_dives old_trips new_trips :
    dive_table s = old_dives ++ new_dives ->
    length old_dives = kd ->
    Forall2 (dive_matches kt stale_t) (dive_table b) new_dives ->
    trip_heap s = old_trips ++ new_trips ->
    length old_trips = kt ->
    Forall2 (trip_matches kd) (trip_heap b) new_trips ->
    slot_matches kd stale_d (active_dive b) (active_dive s) ->
    slot_matches kt stale_t (active_trip b) (active_trip s) ->
    rewalk kd kt stale_d stale_t b s.

(** The two slots point into the tables. *)
Definition slots_in_range (st : state) : Prop :=
  (forall i, active_dive st = Some i -> (i < length (dive_table st))%nat) /\
  (forall i, active_trip st = Some i -> (i < length (trip_heap st))%nat).

(** A store with one repository, at '/tmp/dives': its branch 'master' leads
    to [tree_with_top_level_dive], its branch 'broken' to no tree. *)
Definition sample_store (loc : string) : option git_repository :=
  if String.eqb loc "/tmp/dives" then
    Some {| git_branch_lookup := fun branch =>
              match branch with
              | Some b =>
                  if String.eqb b "master"
                  then Some {| git_reference_peel :=
                                 Some [Tree "2023-07-15-001-10:30:00" [Blob "Dive-7" None]] |}
                  else if String.eqb b "broken" then Some {| git_reference_peel := None |}
                  else None
              | None => None
              end |}
  else None.

(** The state with both slots emptied. *)
Definition clear_slots (st : state) : state :=
  set_active_dive None (set_active_trip None st).

(** A tree whose first dive directory stands at the top, with its whole date
    in its name, before the month that holds a trip. *)
Definition tree_with_top_level_dive : list git_tree_entry :=
  [Tree "2023-07-15-001-10:30:00" [];
   Tree "2023" [Tree "07" [Tree "13-trip" [Tree "14-001-10:00:00" []]]]].

(** ** Further notions: the loader as a whole *)

(** 'mm-nn-ddd-hh:mm:ss[~hex]': the month in the name, the year left to the
    path. *)
Definition month_name (mm dd : Z) (t1 t2 t3 : ascii) (c : decoded_clock)
    (uniq : string) : string :=
  two_digits mm (String "-" (day_name dd t1 t2 t3 c uniq)).

Fixpoint all_space (s : string) : bool :=
  match s with
  | EmptyString => true
  | String c t => isspace c && all_space t
  end.

(** No terminator and no '~' in the string. *)
Fixpoint all_plain (s : string) : bool :=
  match s with
  | EmptyString => true
  | String c t => plain_char c && all_plain t
  end.

(** What a later state keeps of a dive and of a trip of an earlier one: the
    dive its timestamp and its trip, the trip its date and, in their order,
    the dives it had. *)
Definition dive_kept (d d' : dive) : Prop :=
  when d' = when d /\ divetrip d' = divetrip d.

Definition trip_kept (g g' : dive_trip) : Prop :=
  trip_when g' = trip_when g /\ trip_dives g `prefix_of` trip_dives g'.

(** The later state holds all that the earlier one held, and possibly more. *)
Definition extends (st st' : state) : Prop :=
  (exists old new, dive_table st' = old ++ new /\ Forall2 dive_kept (dive_table st) old) /\
  (exists old new, trip_heap st' = old ++ new /\ Forall2 trip_kept (trip_heap st) old) /\
  errors st `prefix_of` errors st'.

(** The state with more diagnostics. *)
Definition add_errors (ds : list diagnostic) (st : state) : state :=
  {| dive_table := dive_table st; trip_heap := trip_heap st;
     active_dive := active_dive st; active_trip := active_trip st;
     errors := errors st ++ ds |}.

(** The timestamp of the dive an effect creates, and of the trip. *)
Definition effect_dive (f : dir_effect) : list Z :=
  match f with New_dive w => [w] | _ => [] end.

Section Yield.

Context {E : Externals}.

Definition effect_trip (f : dir_effect) : list Z :=
  match f with New_trip d => [utc_mktime (trip_tm d)] | _ => [] end.

(** What a tree entry yields, read off its names alone: what [select] takes
    from the effect of each directory that pre-order reaches, a directory
    being passed over with all below it when its name is not accepted. *)
Fixpoint entry_yield (select : dir_effect -> list Z) (path : string)
    (entry : git_tree_entry) : list Z :=
  match entry with
  | Blob _ _ => []
  | Tree name entries =>
      select (snd (directory_effect path name)) ++
      (if fst (directory_effect path name) =? 0
       then flat_map (entry_yield select (path +:+ name +:+ "/")) entries
       else [])
  end.

End Yield.

(** Every dive that is in a trip is listed by that trip, and every dive a
    trip lists is a dive in that trip. *)
Definition trips_consistent (st : state) : Prop :=
  (forall i d t, dive_table st !! i = Some d -> divetrip d = Some t ->
                 exists g, trip_heap st !! t = Some g /\ i ∈ trip_dives g) /\
  (forall t g i, trip_heap st !! t = Some g -> i ∈ trip_dives g ->
                 exists d, dive_table st !! i = Some d /\ divetrip d = Some t).

(** ** The layout of a trip

    A trip directory as it is laid out: the trip's own file and then one
    directory for each dive, named 'nn-ddd-hh:mm:ss[~hex]' and holding files
    only. *)

Record dive_dir := {
  dir_day : Z;
  dir_tag : ascii * ascii * ascii;
  dir_clock : decoded_clock;
  dir_unique : string;
  dir_files : list (string * option string);
}.

Definition dive_dir_name (x : dive_dir) : string :=
  day_name (dir_day x) (dir_tag x).1.1 (dir_tag x).1.2 (dir_tag x).2 (dir_clock x)
    (dir_unique x).

Definition file_entry (f : string * option string) : git_tree_entry := Blob f.1 f.2.

Definition dive_dir_entry (x : dive_dir) : git_tree_entry :=
  Tree (dive_dir_name x) (file_entry <$> dir_files x).

Definition dive_dir_date (yyyy mm : Z) (x : dive_dir) : decoded_date :=
  {| dyear := yyyy; dmonth := mm; dday := dir_day x |}.

Definition dive_dir_ok (yyyy mm : Z) (x : dive_dir) : bool :=
  date_ok (dive_dir_date yyyy mm x) && clock_ok (dir_clock x) &&
  plain_char (dir_tag x).1.1 && plain_char (dir_tag x).1.2 && plain_char (dir_tag x).2 &&
  unique_part (dir_unique x).

Definition trip_dir_entry (dd : Z) (tail : string) (trip_file : option string)
    (dirs : list dive_dir) : git_tree_entry :=
  Tree (trip_name dd tail) (Blob "00-Trip" trip_file :: (dive_dir_entry <$> dirs)).

Section Layout.

Context {E : Externals}.

(** The number a dive is left with by the files of its directory, met in
    order, [n] being its number before. *)
Definition files_number (n : Z) (files : list (string * option string)) : Z :=
  foldl (fun n f => default n (number_written (file_entry f))) n files.

(** The dive that a dive directory of the trip [trip] amounts to. *)
Definition dive_of_dir (yyyy mm : Z) (trip : nat) (x : dive_dir) : dive :=
  {| when := utc_mktime (dive_tm (dive_dir_date yyyy mm x) (dir_clock x));
     number := files_number 0 (dir_files x);
     divetrip := Some trip |}.

End Layout.

(** * Properties *)

(** ** Characters and offsets *)

Lemma digit_facts c :
  isdigit c = true ->
  is_nul c = false /\ Ascii.eqb c "~" = false /\ Ascii.eqb c "-" = false /\
  Ascii.eqb c ":" = false /\ Ascii.eqb c "+" = false /\ isspace c = false /\
  0 <= digit_value c <= 9.
Proof.
  destruct c as [[] [] [] [] [] [] [] []]; vm_compute; intros H;
    first [ discriminate H | repeat split; congruence ].
Qed.

Lemma char_at_0 c t : char_at (String c t) 0 = c.
Proof. reflexivity. Qed.

Lemma char_at_cons c t k : 0 <= k -> char_at (String c t) (1 + k) = char_at t k.
Proof.
  intros Hk. unfold char_at.
  destruct (Z.ltb_spec (1 + k) 0), (Z.ltb_spec k 0); try lia.
  replace (Z.to_nat (1 + k)) with (S (Z.to_nat k)) by lia. reflexivity.
Qed.

Lemma char_at_neg s k : k < 0 -> char_at s k = NUL.
Proof. intros Hk. unfold char_at. destruct (Z.ltb_spec k 0); [reflexivity | lia]. Qed.

Lemma count_digits_nonneg s : 0 <= count_digits s.
Proof. induction s as [|c t IH]; cbn; [lia|]. destruct (isdigit c); lia. Qed.

Lemma nonunique_length_nonneg s : 0 <= nonunique_length s.
Proof.
  induction s as [|c t IH]; cbn; [lia|].
  destruct (is_nul c || Ascii.eqb c "~"); lia.
Qed.

(** The characters counted by [count_digits] are digits. *)
Lemma digits_before s : forall i, 0 <= i < count_digits s -> isdigit (char_at s i) = true.
Proof.
  induction s as [|c t IH]; intros i Hi; cbn in Hi; [lia|].
  destruct (isdigit c) eqn:Hc; [|lia].
  destruct (Z.eq_dec i 0) as [->|Hne]; [exact Hc|].
  replace i with (1 + (i - 1)) by lia.
  rewrite char_at_cons by lia. apply IH. lia.
Qed.

(** When the digits run to the end of the name there is no unique part. *)
Lemma nul_after_digits s :
  is_nul (char_at s (count_digits s)) = true -> nonunique_length s = count_digits s.
Proof.
  induction s as [|c t IH]; cbn; [reflexivity|].
  destruct (isdigit c) eqn:Hc.
  - rewrite char_at_cons by apply count_digits_nonneg.
    intros H. destruct (digit_facts c Hc) as (-> & -> & _). cbn. rewrite IH by exact H. reflexivity.
  - rewrite char_at_0. intros ->. reflexivity.
Qed.

Lemma transparent_no_colon name : transparent_b name = true -> colon_at_time name = false.
Proof.
  unfold transparent_b, colon_at_time. intros H.
  apply andb_prop in H as [_ H]. rewrite (nul_after_digits _ H).
  destruct (Z.lt_ge_cases (count_digits name - 3) 0) as [Hneg|Hpos].
  - rewrite char_at_neg by exact Hneg. reflexivity.
  - apply digit_facts. apply digits_before. lia.
Qed.

(** ** How [walk_tree_directory] treats each class of names *)

Section DirectoryCases.

Context {E : Externals}.

Lemma is_nul_dash c : Ascii.eqb c "-" = true -> is_nul c = false.
Proof. intros H. apply Ascii.eqb_eq in H. subst c. reflexivity. Qed.

(** A dive directory whose fields get decoded: the function is its decoders,
    its validators and the factory, in this order. *)
Lemma walk_record_candidate root name entries st :
  record_candidate name = true ->
  walk_tree_directory root (Tree name entries) st =
  match decoded_time name with
  | None => (GIT_WALK_SKIP, st)
  | Some c =>
      if clock_ok c then
        match decoded_dive_date root name with
        | None => (GIT_WALK_SKIP, reset_at_depth_8 root st)
        | Some d =>
            if date_ok d
            then (GIT_WALK_OK, with_new_dive (utc_mktime (dive_tm d c)) (reset_at_depth_8 root st))
            else (GIT_WALK_SKIP, reset_at_depth_8 root st)
        end
      else (GIT_WALK_SKIP, st)
  end.
Proof.
  unfold record_candidate, decode_candidate, colon_at_time.
  intros H. repeat (apply andb_prop in H; destruct H as [H ?]).
  rename H0 into Hdash9, H1 into Hlen, H2 into Hcolon, H3 into Hdash.
  apply Z.leb_le in Hlen.
  unfold walk_tree_directory. cbn [git_tree_entry_name]. cbv zeta.
  replace (negb (count_digits name =? 4) && negb (count_digits name =? 2)) with false
    by (destruct (count_digits name =? 2), (count_digits name =? 4); done).
  rewrite (is_nul_dash _ Hdash), Hdash, Hcolon. cbn [negb].
  unfold dive_directory, decoded_time, decoded_dive_date, path_year_month. cbv zeta.
  set (len := nonunique_length name) in *.
  replace (len - 8 - 7 <? 0) with false by (symmetry; apply Z.ltb_ge; lia).
  replace (len - 8 - 1) with (len - 9) by lia.
  rewrite Hdash9. cbn [negb].
  destruct (sscanf_d_colon_d_colon_d int_overflow (str_from name (len - 8)))
    as [n [[h m] s]].
  destruct (n =? 3); cbn [negb]; [|reflexivity].
  unfold clock_ok at 1. cbn [dhour dminute dsecond].
  destruct (validate_time h m s); cbn [negb]; [|reflexivity].
  fold (reset_at_depth_8 root st).
  replace (len - 8 - 7) with (len - 15) by lia.
  replace (len - 15 - 3) with (len - 18) by lia.
  replace (len - 18 - 5) with (len - 23) by lia.
  replace (len - 18 >=? 0) with (18 <=? len)
    by (rewrite Z.geb_leb; destruct (Z.leb_spec 18 len), (Z.leb_spec 0 (len - 18)); lia).
  destruct (len - 23 <? 0) eqn:Hy.
  - replace (len <? 23) with true by (symmetry; apply Z.ltb_lt; apply Z.ltb_lt in Hy; lia).
    destruct (sscanf_d_slash_d int_overflow root (-1) (-1)) as [k [yyyy mm]].
    destruct (k =? 2); cbn [negb]; [|reflexivity].
    unfold date_ok. cbn [dyear dmonth dday].
    destruct (validate_date _ _ _); cbn [negb]; [|reflexivity].
    unfold with_new_dive, dive_tm. cbn [dyear dmonth dday dhour dminute dsecond].
    destruct (create_new_dive _ _); reflexivity.
  - replace (len <? 23) with false by (symmetry; apply Z.ltb_ge; apply Z.ltb_ge in Hy; lia).
    unfold date_ok. cbn [dyear dmonth dday].
    destruct (validate_date _ _ _); cbn [negb]; [|reflexivity].
    unfold with_new_dive, dive_tm. cbn [dyear dmonth dday dhour dminute dsecond].
    destruct (create_new_dive _ _); reflexivity.
Qed.

(** A trip directory whose fields get decoded. *)
Lemma walk_trip_candidate root name entries st :
  trip_candidate name = true ->
  walk_tree_directory root (Tree name entries) st =
  match decoded_trip_date root name with
  | None => (GIT_WALK_SKIP, st)
  | Some d => if date_ok d then (GIT_WALK_OK, with_new_trip d st) else (GIT_WALK_SKIP, st)
  end.
Proof.
  unfold trip_candidate, colon_at_time.
  intros H. repeat (apply andb_prop in H; destruct H as [H ?]).
  rename H0 into Hcolon, H1 into Hdash.
  apply Z.eqb_eq in H. apply negb_true_iff in Hcolon.
  unfold walk_tree_directory. cbn [git_tree_entry_name]. cbv zeta.
  rewrite H. cbn [Z.eqb Pos.eqb negb andb].
  rewrite (is_nul_dash _ Hdash), Hdash, Hcolon. cbn [negb].
  unfold dive_trip_directory, decoded_trip_date, path_year_month.
  destruct (sscanf_d_slash_d int_overflow root (-1) (-1)) as [k [yyyy mm]].
  destruct (k =? 2); cbn [negb]; [|reflexivity].
  unfold date_ok. cbn [dyear dmonth dday].
  destruct (validate_date _ _ _); cbn [negb]; [|reflexivity].
  unfold with_new_trip. cbn [dyear dmonth dday].
  destruct (create_new_trip _ _ _ _); reflexivity.
Qed.

(** Every other name leaves the state alone; only a bare year or month is
    descended into. *)
Lemma walk_no_candidate root name entries st :
  record_candidate name = false -> trip_candidate name = false ->
  walk_tree_directory root (Tree name entries) st =
  (if transparent_b name then GIT_WALK_OK else GIT_WALK_SKIP, st).
Proof.
  unfold record_candidate, trip_candidate, decode_candidate, colon_at_time, transparent_b.
  intros Hrec Htrip.
  unfold walk_tree_directory, dive_directory. cbn [git_tree_entry_name]. cbv zeta.
  set (len := nonunique_length name) in *.
  destruct (Z.eqb_spec (count_digits name) 2) as [H2|H2];
    destruct (Z.eqb_spec (count_digits name) 4) as [H4|H4];
    cbn [negb andb orb] in *; try lia; try reflexivity.
  all: destruct (is_nul (char_at name (count_digits name))) eqn:Hnul; [reflexivity|].
  all: destruct (Ascii.eqb (char_at name (count_digits name)) "-") eqn:Hdash;
    cbn [negb andb] in *; [|reflexivity].
  all: destruct (Ascii.eqb (char_at name (len - 3)) ":") eqn:Hcolon;
    cbn [negb andb] in *; try reflexivity.
  all: try (replace (len - 8 - 1) with (len - 9) by lia;
            destruct (Z.ltb_spec (len - 8 - 7) 0) as [Hl|Hl]; [reflexivity|];
            destruct (Z.leb_spec 15 len); [|lia];
            cbn [andb] in Hrec; rewrite Hrec; reflexivity).
  rewrite H2 in Hdash. rewrite Hdash in Htrip. discriminate Htrip.
Qed.

(** A name with the ':' of a time in place that is too short for a day, or
    lacks the '-' before the time, is skipped. *)
Lemma walk_colon_not_candidate root name entries st :
  colon_at_time name = true -> record_candidate name = false ->
  walk_tree_directory root (Tree name entries) st = (GIT_WALK_SKIP, st).
Proof.
  intros Hcolon Hrec.
  rewrite walk_no_candidate; [|exact Hrec|].
  - destruct (transparent_b name) eqn:Ht; [|reflexivity].
    apply transparent_no_colon in Ht. congruence.
  - unfold trip_candidate. rewrite Hcolon. apply andb_false_r.
Qed.

(** The three cases cover every name. *)
Lemma candidates_disjoint name :
  record_candidate name = true -> trip_candidate name = false.
Proof.
  unfold record_candidate, trip_candidate. intros H.
  repeat (apply andb_prop in H; destruct H as [H ?]).
  rewrite H2. apply andb_false_r.
Qed.

End DirectoryCases.

(** ** The validators *)

Lemma validate_date_spec yyyy mm dd :
  validate_date yyyy mm dd = true <->
  1970 < yyyy < 3000 /\ 1 <= mm <= 12 /\ 1 <= dd <= 31.
Proof.
  unfold validate_date. rewrite !andb_true_iff, !Z.gtb_ltb, !Z.ltb_lt. lia.
Qed.

Lemma validate_time_spec h m s :
  validate_time h m s = true <->
  0 <= h <= 23 /\ 0 <= m <= 59 /\ 0 <= s <= 60.
Proof.
  unfold validate_time.
  rewrite !andb_true_iff, !Z.geb_leb, !Z.ltb_lt, !Z.leb_le. lia.
Qed.

(** C5. The date validator accepts exactly the years strictly between 1970 and
    3000, the months 1 to 12 and the days 1 to 31; the time validator accepts
    exactly the hours 0 to 23, the minutes 0 to 59 and the seconds 0 to 60.  A
    dive directory with the time 10:30:60 is accepted and yields one dive; with
    10:30:61 or 24:00:00 it is skipped and the state, dive table included, is
    what it was. *)
Theorem validators_accept_exactly :
  (forall yyyy mm dd,
      validate_date yyyy mm dd = true <->
      1970 < yyyy < 3000 /\ 1 <= mm <= 12 /\ 1 <= dd <= 31) /\
  (forall h m s,
      validate_time h m s = true <->
      0 <= h <= 23 /\ 0 <= m <= 59 /\ 0 <= s <= 60) /\
  (forall (E : Externals) entries,
      let r := walk_tree_directory "2023/07/" (Tree "15-001-10:30:60" entries) initial_state in
      fst r = GIT_WALK_OK /\ length (dive_table (snd r)) = 1%nat) /\
  (forall (E : Externals) root entries st,
      walk_tree_directory root (Tree "15-001-10:30:61" entries) st = (GIT_WALK_SKIP, st)) /\
  (forall (E : Externals) root entries st,
      walk_tree_directory root (Tree "15-001-24:00:00" entries) st = (GIT_WALK_SKIP, st)).
Proof.
  split; [exact validate_date_spec|].
  split; [exact validate_time_spec|].
  split; [|split].
  - intros E entries. split; reflexivity.
  - intros E root entries st.
    rewrite walk_record_candidate by reflexivity. reflexivity.
  - intros E root entries st.
    rewrite walk_record_candidate by reflexivity. reflexivity.
Qed.

(** ** The classes of directory names *)

Lemma all_digits_cstr s :
  all_digits (cstr s) = true ->
  count_digits s = strlen s /\ is_nul (char_at s (strlen s)) = true.
Proof.
  induction s as [|c t IH]; cbn; [split; reflexivity|].
  destruct (is_nul c) eqn:Hc; cbn.
  - intros _. destruct (isdigit c) eqn:Hd.
    + destruct (digit_facts c Hd) as (Hn & _). congruence.
    + split; [reflexivity|]. exact Hc.
  - intros H. apply andb_prop in H as [Hd H]. rewrite Hd.
    destruct (IH H) as [IH1 IH2]. rewrite IH1. split; [reflexivity|].
    rewrite char_at_cons; [exact IH2|]. rewrite <- IH1. apply count_digits_nonneg.
Qed.

Lemma nul_after_digits_cstr s :
  is_nul (char_at s (count_digits s)) = true ->
  all_digits (cstr s) = true /\ strlen s = count_digits s.
Proof.
  induction s as [|c t IH]; cbn; [split; reflexivity|].
  destruct (isdigit c) eqn:Hd.
  - rewrite char_at_cons by apply count_digits_nonneg.
    intros H. destruct (digit_facts c Hd) as (-> & _). cbn. rewrite Hd.
    destruct (IH H) as [-> ->]. split; reflexivity.
  - rewrite char_at_0. intros ->. split; reflexivity.
Qed.

Lemma transparent_name_iff name : transparent_name name <-> transparent_b name = true.
Proof.
  unfold transparent_name, transparent_b. split.
  - intros [Hd Hl]. destruct (all_digits_cstr _ Hd) as [Hc Hn].
    rewrite Hc, Hn, andb_true_r. apply orb_true_iff.
    rewrite !Z.eqb_eq. exact Hl.
  - intros H. apply andb_prop in H as [Hl Hn].
    destruct (nul_after_digits_cstr _ Hn) as [Hd Hs].
    split; [exact Hd|]. rewrite Hs.
    apply orb_true_iff in Hl. rewrite !Z.eqb_eq in Hl. exact Hl.
Qed.

Lemma is_nul_iff c : is_nul c = true <-> c = NUL.
Proof. apply Ascii.eqb_eq. Qed.

(** C7. Every directory name is of exactly one of three kinds.  A name of
    nothing but two or four digits is descended into and the state stays as it
    is; a name that does not start with exactly two or four digits, or has
    another character than '-' after them, is skipped and the state stays as it
    is; for the remaining names, two or four digits and a '-', a dive directory
    is tried when the colon of a time stands in its place, and a trip directory
    otherwise, but only after two digits: four digits, a '-' and no colon are
    skipped with the state as it is. *)
Theorem directory_classifier (E : Externals) root name entries st :
  let r := walk_tree_directory root (Tree name entries) st in
  (transparent_name name -> r = (GIT_WALK_OK, st)) /\
  (rejected_name name -> r = (GIT_WALK_SKIP, st)) /\
  (decode_name name ->
   r = if colon_at_time name then dive_directory root name (nonunique_length name - 8) st
       else if count_digits name =? 2 then dive_trip_directory root name st
       else (GIT_WALK_SKIP, st)) /\
  (count_digits name = 4 -> char_at name 4 = "-"%char -> colon_at_time name = false ->
   r = (GIT_WALK_SKIP, st)) /\
  ((transparent_name name /\ ~ rejected_name name /\ ~ decode_name name) \/
   (~ transparent_name name /\ rejected_name name /\ ~ decode_name name) \/
   (~ transparent_name name /\ ~ rejected_name name /\ decode_name name)).
Proof.
  cbv zeta. rewrite transparent_name_iff.
  unfold transparent_b, rejected_name, decode_name, colon_at_time, walk_tree_directory.
  cbn [git_tree_entry_name]. cbv zeta.
  set (digits := count_digits name). set (c := char_at name digits).
  repeat split.
  - intros H. apply andb_prop in H as [Hd Hn]. rewrite Hn.
    destruct (digits =? 2), (digits =? 4); try discriminate Hd; reflexivity.
  - intros [[H2 H4]|[Hn Hd]].
    + apply Z.eqb_neq in H2, H4. rewrite H2, H4. reflexivity.
    + destruct (negb (digits =? 4) && negb (digits =? 2)); [reflexivity|].
      destruct (is_nul c) eqn:Hc; [apply is_nul_iff in Hc; contradiction|].
      destruct (Ascii.eqb c "-") eqn:Hc'; [apply Ascii.eqb_eq in Hc'; contradiction|].
      reflexivity.
  - intros [Hd Hc]. rewrite Hc. cbn [is_nul Ascii.eqb negb].
    replace (negb (digits =? 4) && negb (digits =? 2)) with false
      by (destruct Hd as [-> | ->]; reflexivity).
    change (is_nul "-") with false. cbv iota.
    change (negb (Ascii.eqb "-" "-")) with false. cbv iota.
    destruct (Ascii.eqb _ ":"); [reflexivity|].
    destruct (digits =? 2); reflexivity.
  - intros H4 Hc Hcolon. rewrite H4. fold c. unfold c at 1 2. rewrite H4, Hc.
    change (is_nul "-") with false. change (negb (Ascii.eqb "-" "-")) with false.
    cbn [Z.eqb Pos.eqb negb andb]. cbv iota.
    fold digits in Hcolon. rewrite Hcolon. reflexivity.
  - fold digits c. rewrite andb_true_iff, orb_true_iff, !Z.eqb_eq, is_nul_iff.
    assert (Hne : NUL <> "-"%char) by discriminate.
    destruct (Z.eq_dec digits 2), (Z.eq_dec digits 4),
      (ascii_dec c NUL), (ascii_dec c "-"); intuition (try congruence; try lia).
Qed.

(** ** What a visit can change *)

Section Effects.

Context {E : Externals}.

Lemma reset_fields root st :
  dive_table (reset_at_depth_8 root st) = dive_table st /\
  trip_heap (reset_at_depth_8 root st) = trip_heap st /\
  active_dive (reset_at_depth_8 root st) = active_dive st /\
  errors (reset_at_depth_8 root st) = errors st /\
  active_trip (reset_at_depth_8 root st) = (if strlen root =? 8 then None else active_trip st).
Proof. unfold reset_at_depth_8. destruct (strlen root =? 8); repeat split. Qed.

Lemma with_new_trip_fields d st :
  dive_table (with_new_trip d st) = dive_table st /\
  trip_heap (with_new_trip d st) =
    trip_heap st ++ [{| trip_when := utc_mktime (trip_tm d); trip_dives := [] |}] /\
  active_dive (with_new_trip d st) = active_dive st /\
  active_trip (with_new_trip d st) = Some (length (trip_heap st)) /\
  errors (with_new_trip d st) = errors st.
Proof. repeat split. Qed.

(** A dive created while no trip is active belongs to none. *)
Lemma with_new_dive_no_trip w st :
  active_trip st = None ->
  with_new_dive w st =
  {| dive_table := dive_table st ++ [{| when := w; number := 0; divetrip := None |}];
     trip_heap := trip_heap st;
     active_dive := Some (length (dive_table st));
     active_trip := None;
     errors := errors st |}.
Proof.
  intros H. unfold with_new_dive, create_new_dive. rewrite H.
  unfold add_dive_to_trip, set_active_dive, record_dive, set_dive_table, set_trip_heap.
  cbn. rewrite H. reflexivity.
Qed.

(** A dive created while a trip is active is attached to it. *)
Lemma with_new_dive_in_trip w st trip :
  active_trip st = Some trip ->
  with_new_dive w st =
  {| dive_table := dive_table st ++ [{| when := w; number := 0; divetrip := Some trip |}];
     trip_heap :=
       alter (fun t => {| trip_when := trip_when t;
                          trip_dives := trip_dives t ++ [length (dive_table st)] |})
             trip (trip_heap st);
     active_dive := Some (length (dive_table st));
     active_trip := Some trip;
     errors := errors st |}.
Proof.
  intros H. unfold with_new_dive, create_new_dive. rewrite H.
  unfold add_dive_to_trip, set_active_dive, record_dive, set_dive_table, set_trip_heap.
  cbn. rewrite H. reflexivity.
Qed.

Lemma with_new_dive_table w st :
  exists d, dive_table (with_new_dive w st) = dive_table st ++ [d] /\ when d = w /\
            number d = 0 /\ divetrip d = active_trip st.
Proof.
  destruct (active_trip st) as [trip|] eqn:H.
  - rewrite (with_new_dive_in_trip _ _ _ H). eexists. repeat split; cbn; try reflexivity.
  - rewrite (with_new_dive_no_trip _ _ H). eexists. repeat split; cbn; try reflexivity.
Qed.

(** Only a dive directory whose fields get decoded can add to the dive table. *)
Lemma dive_table_kept root name entries st :
  record_candidate name = false ->
  dive_table (snd (walk_tree_directory root (Tree name entries) st)) = dive_table st.
Proof.
  intros Hrec. destruct (trip_candidate name) eqn:Htrip.
  - rewrite walk_trip_candidate by exact Htrip.
    destruct (decoded_trip_date root name) as [d|]; [|reflexivity].
    destruct (date_ok d); reflexivity.
  - rewrite walk_no_candidate by assumption. reflexivity.
Qed.

Lemma record_candidate_shape name :
  record_candidate name = true ->
  15 <= nonunique_length name /\
  char_at name (nonunique_length name - 9) = "-"%char /\
  char_at name (nonunique_length name - 3) = ":"%char.
Proof.
  unfold record_candidate, colon_at_time. intros H.
  repeat (apply andb_prop in H; destruct H as [H ?]).
  split; [apply Z.leb_le; assumption|].
  split; apply Ascii.eqb_eq; assumption.
Qed.

End Effects.

(** C10. A directory for which a dive is added to the dive table has a name
    of at least 15 characters before its unique part and a '-' right before
    the eight characters of the time; a name with the ':' in place that is
    shorter than 15 characters, or has another character than '-' before the
    time, is skipped and the state is what it was. *)
Theorem record_name_shape (E : Externals) root name entries st :
  let r := walk_tree_directory root (Tree name entries) st in
  let len := nonunique_length name in
  (dive_table (snd r) <> dive_table st ->
   15 <= len /\ char_at name (len - 9) = "-"%char) /\
  (colon_at_time name = true ->
   len < 15 \/ char_at name (len - 9) <> "-"%char ->
   r = (GIT_WALK_SKIP, st)).
Proof.
  cbv zeta. split.
  - intros Hchg. destruct (record_candidate name) eqn:Hrec.
    + destruct (record_candidate_shape _ Hrec) as (Hlen & Hdash & _). split; assumption.
    + exfalso. apply Hchg. apply dive_table_kept. exact Hrec.
  - intros Hcolon Hbad. apply walk_colon_not_candidate; [exact Hcolon|].
    destruct (record_candidate name) eqn:Hrec; [|reflexivity].
    destruct (record_candidate_shape _ Hrec) as (Hlen & Hdash & _).
    destruct Hbad as [Hshort|Hnodash]; [lia | contradiction].
Qed.

(** Both halves at work: '15-001-10:30:00' adds a dive and has the shape;
    '2023-x:30:00' has the colon in place, is too short, and is skipped. *)
Lemma record_name_shape_witness :
  (15 <= nonunique_length "15-001-10:30:00" /\
   char_at "15-001-10:30:00" (nonunique_length "15-001-10:30:00" - 9) = "-"%char) /\
  walk_tree_directory (E := E0) "2023/07/" (Tree "2023-x:30:00" []) state_in_trip
  = (GIT_WALK_SKIP, state_in_trip).
Proof.
  split.
  - apply (proj1 (record_name_shape E0 "2023/07/" "15-001-10:30:00" [] initial_state)).
    vm_compute. discriminate.
  - apply (proj2 (record_name_shape E0 "2023/07/" "2023-x:30:00" [] state_in_trip)).
    + reflexivity.
    + left. vm_compute. reflexivity.
Defined.

(** C2, as the code has it.  A directory whose decoded time or date fails
    validation is skipped and the walk does not descend into it; no dive and
    no trip is created and the active dive stays as it is.  The active trip
    stays as it is too, except for a dive directory whose time was accepted and
    whose date fails: under a path of exactly 8 characters the active trip has
    been cleared by then. *)
Theorem validation_failure_rejects (E : Externals) root name entries st reset :
  validation_failure root name reset ->
  let st' := if reset then reset_at_depth_8 root st else st in
  walk_tree_directory root (Tree name entries) st = (GIT_WALK_SKIP, st') /\
  walk_entry walk_tree_cb root (Tree name entries) st = (0, st') /\
  dive_table st' = dive_table st /\ trip_heap st' = trip_heap st /\
  active_dive st' = active_dive st /\
  (active_trip st' = active_trip st \/
   (reset = true /\ strlen root = 8 /\ active_trip st' = None)).
Proof.
  intros Hfail st'.
  assert (Hwalk : walk_tree_directory root (Tree name entries) st = (GIT_WALK_SKIP, st')).
  { subst st'. destruct Hfail as [c Hrec Ht Hc | c d Hrec Ht Hc Hd Hdate | d Htrip Hd Hdate].
    - rewrite walk_record_candidate, Ht, Hc by exact Hrec. reflexivity.
    - rewrite walk_record_candidate, Ht, Hc, Hd, Hdate by exact Hrec. reflexivity.
    - rewrite walk_trip_candidate, Hd, Hdate by exact Htrip. reflexivity. }
  split; [exact Hwalk|].
  split.
  { cbn [walk_entry walk_tree_cb]. rewrite Hwalk. reflexivity. }
  subst st'. destruct reset; [|repeat split; left; reflexivity].
  destruct (reset_fields root st) as (-> & -> & -> & _ & Htrip).
  repeat split. rewrite Htrip.
  destruct (Z.eqb_spec (strlen root) 8) as [H8|H8]; [right | left]; repeat split.
  exact H8.
Qed.

Lemma validation_failure_rejects_witness :
  walk_tree_directory (E := E0) "2023/07/" (Tree "32-001-10:30:00" []) state_in_trip
  = (GIT_WALK_SKIP, reset_at_depth_8 "2023/07/" state_in_trip).
Proof.
  apply (validation_failure_rejects E0 "2023/07/" "32-001-10:30:00" [] state_in_trip true).
  apply (Dive_date_fails (E := E0) _ _
           {| dhour := 10; dminute := 30; dsecond := 0 |}
           {| dyear := 2023; dmonth := 7; dday := 32 |}); reflexivity.
Defined.

(** C2 as stated fails: '32-001-10:30:00' under '2023/07/' has a valid time
    and the day 32; it is skipped, and the trip that was active before the
    visit is no longer active after it. *)
Lemma rejected_date_clears_active_trip :
  validate_time 10 30 0 = true /\ validate_date 2023 7 32 = false /\
  active_trip state_in_trip = Some 0%nat /\
  fst (walk_tree_directory (E := E0) "2023/07/" (Tree "32-001-10:30:00" []) state_in_trip)
  = GIT_WALK_SKIP /\
  active_trip
    (snd (walk_tree_directory (E := E0) "2023/07/" (Tree "32-001-10:30:00" []) state_in_trip))
  = None.
Proof. repeat split. Qed.

(** C3. A validated dive directory visited under a path of exactly 8
    characters is built in the state whose active trip has been cleared: the
    visit adds one dive that belongs to no trip, whatever trip was active
    before, touches no trip, and leaves no trip active. *)
Theorem depth_8_record_has_no_trip (E : Externals) root name entries st d c :
  validated_record root name d c ->
  strlen root = 8 ->
  let r := walk_tree_directory root (Tree name entries) st in
  r = (GIT_WALK_OK, with_new_dive (utc_mktime (dive_tm d c)) (set_active_trip None st)) /\
  dive_table (snd r) =
    dive_table st ++ [{| when := utc_mktime (dive_tm d c); number := 0; divetrip := None |}] /\
  trip_heap (snd r) = trip_heap st /\
  active_trip (snd r) = None /\
  active_dive (snd r) = Some (length (dive_table st)).
Proof.
  intros (Hrec & Ht & Hc & Hd & Hdate) H8 r.
  assert (Hr : r = (GIT_WALK_OK,
                    with_new_dive (utc_mktime (dive_tm d c)) (set_active_trip None st))).
  { subst r. rewrite walk_record_candidate, Ht, Hc, Hd, Hdate by exact Hrec.
    unfold reset_at_depth_8. rewrite H8. reflexivity. }
  rewrite Hr. cbn [snd].
  rewrite with_new_dive_no_trip by reflexivity.
  repeat split.
Qed.

Lemma depth_8_record_has_no_trip_witness :
  dive_table
    (snd (walk_tree_directory (E := E0) "2023/07/" (Tree "20-002-09:00:00" []) state_in_trip))
  = [{| when := 1689843600; number := 0; divetrip := None |}].
Proof.
  apply (depth_8_record_has_no_trip E0 "2023/07/" "20-002-09:00:00" [] state_in_trip
           {| dyear := 2023; dmonth := 7; dday := 20 |}
           {| dhour := 9; dminute := 0; dsecond := 0 |}).
  - repeat split.
  - reflexivity.
Defined.

(** The walk of '2023/07/13-trip/14-001-10:00:00' followed by its sibling at
    depth 8, '2023/07/20-002-09:00:00': the first dive is in the trip, the
    second in none. *)
Example sibling_after_trip_subtree :
  dive_table
    (snd (load_dives_from_tree (E := E0)
            [Tree "2023" [Tree "07" [Tree "13-trip" [Tree "14-001-10:00:00" []];
                                     Tree "20-002-09:00:00" []]]]
            initial_state))
  = [{| when := 1689328800; number := 0; divetrip := Some 0%nat |};
     {| when := 1689843600; number := 0; divetrip := None |}].
Proof. vm_compute. reflexivity. Qed.

(** ** Files *)

(** C1, as the code has it.  For a readable file whose name is 'Dive' and a
    suffix, not a 'Divecomputer' file, visited while a dive is active: when the
    suffix is not empty its first character is passed over and the number of
    the active dive becomes the decimal value of what follows ('Dive-5' gives
    5); when the suffix is empty nothing changes. *)
Theorem dive_file_sets_number (E : Externals) root suffix blob st i :
  active_dive st = Some i ->
  (strncmp ("Dive" +:+ suffix) "Divecomputer" 12 =? 0) = false ->
  let r := walk_tree_file root (Blob ("Dive" +:+ suffix) (Some blob)) st in
  (is_nul (head_char suffix) = false ->
   r = (0, set_dive_table
             (alter (set_number (atoi int_overflow (str_from suffix 1))) i (dive_table st)) st)) /\
  (is_nul (head_char suffix) = true -> r = (0, st)).
Proof.
  intros Hactive Hcomputer r. subst r.
  unfold walk_tree_file. cbn [git_tree_entry_name]. cbv zeta.
  rewrite Hactive, Hcomputer. cbn [non_null andb].
  change (strncmp ("Dive" +:+ suffix) "Dive" 4 =? 0) with true. cbv iota.
  change (str_from ("Dive" +:+ suffix) 4) with suffix.
  unfold parse_dive_entry. cbn [git_tree_entry_blob]. rewrite Hactive.
  split; intros ->; reflexivity.
Qed.

Lemma dive_file_sets_number_witness :
  walk_tree_file (E := E0) "2023/07/15-001-10:30:00/" (Blob "Dive-5" (Some "")) state_in_dive
  = (0, set_dive_table [{| when := 1689417000; number := 5; divetrip := None |}] state_in_dive).
Proof.
  apply (dive_file_sets_number E0 "2023/07/15-001-10:30:00/" "-5" "" state_in_dive 0%nat);
    reflexivity.
Defined.

(** C1 as stated fails: the readable file 'Dive5', visited while the dive
    numbered 7 is active, is taken by the dive parser and leaves the dive
    with the number 0, the value of what follows the '5'. *)
Lemma dive5_gives_number_0 :
  active_dive state_in_dive = Some 0%nat /\
  number <$> dive_table state_in_dive !! 0%nat = Some 7 /\
  number <$>
    dive_table
      (snd (walk_tree_file (E := E0) "2023/07/15-001-10:30:00/" (Blob "Dive5" (Some ""))
              state_in_dive)) !! 0%nat
  = Some 0.
Proof. repeat split. Qed.

(** ** The walk as a whole *)

Section TreeInduction.

Variable P : git_tree_entry -> Prop.
Hypothesis P_blob : forall name blob, P (Blob name blob).
Hypothesis P_tree : forall name entries, Forall P entries -> P (Tree name entries).

(** Induction over a tree whose children hold the property already. *)
Lemma git_tree_entry_forall_ind : forall entry, P entry.
Proof.
  fix IH 1. intros [name blob | name entries].
  - apply P_blob.
  - apply P_tree. induction entries as [|e rest IHrest].
    + apply Forall_nil_2.
    + apply Forall_cons_2; [apply IH | exact IHrest].
Qed.

End TreeInduction.

Section Walk.

Context {E : Externals}.

(** The directory callback answers OK or SKIP. *)
Lemma walk_tree_directory_code root name entries st :
  fst (walk_tree_directory root (Tree name entries) st) = GIT_WALK_OK \/
  fst (walk_tree_directory root (Tree name entries) st) = GIT_WALK_SKIP.
Proof.
  destruct (record_candidate name) eqn:Hrec; [|destruct (trip_candidate name) eqn:Htrip].
  - rewrite walk_record_candidate by exact Hrec.
    destruct (decoded_time name) as [c|]; [|right; reflexivity].
    destruct (clock_ok c); [|right; reflexivity].
    destruct (decoded_dive_date root name) as [d|]; [|right; reflexivity].
    destruct (date_ok d); [left | right]; reflexivity.
  - rewrite walk_trip_candidate by exact Htrip.
    destruct (decoded_trip_date root name) as [d|]; [|right; reflexivity].
    destruct (date_ok d); [left | right]; reflexivity.
  - rewrite walk_no_candidate by assumption.
    destruct (transparent_b name); [left | right]; reflexivity.
Qed.

Lemma walk_tree_cb_blob root name blob st :
  walk_tree_cb root (Blob name blob) st
  = (GIT_WALK_OK, snd (walk_tree_file root (Blob name blob) st)).
Proof. cbn [walk_tree_cb]. destruct (walk_tree_file _ _ _). reflexivity. Qed.

Lemma walk_entries_ok (walk : git_tree_entry -> state -> Z * state) entries :
  Forall (fun e => forall st, fst (walk e st) = 0) entries ->
  forall st, fst (walk_entries walk entries st) = 0.
Proof.
  induction 1 as [|e rest He _ IH]; intros st; cbn; [reflexivity|].
  specialize (He st). destruct (walk e st) as [error st']. cbn in He. subst error.
  cbn. apply IH.
Qed.

(** The walk is never stopped: no callback of the loader answers below zero. *)
Lemma walk_entry_ok entry : forall path st, fst (walk_entry walk_tree_cb path entry st) = 0.
Proof.
  induction entry as [name blob | name entries IH] using git_tree_entry_forall_ind;
    intros path st.
  - cbn [walk_entry]. rewrite walk_tree_cb_blob. reflexivity.
  - cbn [walk_entry walk_tree_cb].
    pose proof (walk_tree_directory_code path name entries st) as Hcode.
    destruct (walk_tree_directory path (Tree name entries) st) as [code st'].
    cbn [fst] in Hcode. destruct Hcode as [-> | ->]; [|reflexivity].
    cbn. apply walk_entries_ok.
    eapply Forall_impl; [exact IH|]. intros e He st0. apply He.
Qed.

Lemma git_tree_walk_ok tree st : fst (git_tree_walk tree walk_tree_cb st) = 0.
Proof.
  unfold git_tree_walk. apply walk_entries_ok.
  apply Forall_forall. intros e _ st0. apply walk_entry_ok.
Qed.

End Walk.

(** C8. Whatever the dispatch of a file or the reading of its blob comes
    to, the callback answers OK for a file, the walker goes on with the next
    sibling, and no walk of the loader is ever stopped; whereas a location
    that cannot be opened, a branch that cannot be found and a branch that
    does not lead to a tree are each reported and make the load return a
    non-zero status, with the dives and trips recorded so far left as they
    are. *)
Theorem failures_local_or_fatal (E : Externals) :
  (forall root name blob st,
      fst (walk_tree_cb root (Blob name blob) st) = GIT_WALK_OK) /\
  (forall path name blob rest st,
      walk_entries (walk_entry walk_tree_cb path) (Blob name blob :: rest) st
      = walk_entries (walk_entry walk_tree_cb path) rest
          (snd (walk_tree_file path (Blob name blob) st))) /\
  (forall tree st, fst (git_tree_walk tree walk_tree_cb st) = 0) /\
  (forall where_ st d,
      resolution_failure where_ d ->
      let r := git_load_dives where_ st in
      fst r <> 0 /\ snd r = with_error d st /\
      dive_table (snd r) = dive_table st /\ trip_heap (snd r) = trip_heap st /\
      errors (snd r) = errors st ++ [d]).
Proof.
  split; [|split; [|split]].
  - intros root name blob st. rewrite walk_tree_cb_blob. reflexivity.
  - intros path name blob rest st.
    cbn [walk_entries walk_entry]. rewrite walk_tree_cb_blob. reflexivity.
  - intros tree st. apply git_tree_walk_ok.
  - intros where_ st d Hfail r.
    assert (Hr : r = report_error d st).
    { subst r. unfold git_load_dives, do_git_load.
      destruct Hfail as [Hopen | repo Hopen Hlook | repo ref Hopen Hlook Hpeel];
        unfold split_location in *; cbv zeta in *;
        destruct (split_last ":" (rtrim (cstr (skip_space (str_from where_ 3)))))
          as [[loc branch]|]; cbn [fst snd] in *;
        rewrite Hopen; try rewrite Hlook; try rewrite Hpeel; reflexivity. }
    rewrite Hr. repeat split. cbn. discriminate.
Qed.

(** ** Reading back the names as they are written *)

Lemma digit_char_props k :
  isdigit (digit_char k) = true /\ digit_value (digit_char k) = k mod 10.
Proof.
  unfold digit_char. pose proof (Z.mod_pos_bound k 10 eq_refl) as Hr.
  set (r := k mod 10) in *.
  assert (Hcases : r = 0 \/ r = 1 \/ r = 2 \/ r = 3 \/ r = 4 \/
                   r = 5 \/ r = 6 \/ r = 7 \/ r = 8 \/ r = 9) by lia.
  clearbody r. clear Hr.
  repeat (destruct Hcases as [-> | Hcases]; [split; reflexivity|]).
  subst r. split; reflexivity.
Qed.

Lemma isdigit_digit_char k : isdigit (digit_char k) = true.
Proof. apply digit_char_props. Qed.

Lemma digit_value_digit_char k : digit_value (digit_char k) = k mod 10.
Proof. apply digit_char_props. Qed.

Lemma plain_digit_char k : plain_char (digit_char k) = true.
Proof.
  unfold plain_char.
  destruct (digit_facts _ (isdigit_digit_char k)) as (-> & -> & _). reflexivity.
Qed.

Lemma two_digits_value n : 0 <= n < 100 -> (0 * 10 + (n / 10) mod 10) * 10 + n mod 10 = n.
Proof. intros Hn. Z.div_mod_to_equations. lia. Qed.

Lemma four_digits_value n :
  0 <= n < 10000 ->
  (((0 * 10 + (n / 1000) mod 10) * 10 + (n / 100) mod 10) * 10 + (n / 10) mod 10) * 10
  + n mod 10 = n.
Proof. intros Hn. Z.div_mod_to_equations. lia. Qed.

Lemma to_int_small ov v : 0 <= v < 10000 -> to_int ov v = v.
Proof.
  intros Hv. unfold to_int, INT_MIN, INT_MAX.
  destruct (Z.leb_spec (-2147483648) v), (Z.leb_spec v 2147483647); try lia. reflexivity.
Qed.

Lemma scan_digits_stop rest acc :
  isdigit (head_char rest) = false -> scan_digits rest acc = (acc, rest).
Proof. destruct rest as [|c t]; cbn; [reflexivity|]. intros ->. reflexivity. Qed.

(** A conversion that starts at a digit takes the run of digits. *)
Lemma scan_int_at_digit ov k t :
  scan_int ov (String (digit_char k) t) =
  let '(v, rest) := scan_digits (String (digit_char k) t) 0 in Some (to_int ov v, rest).
Proof.
  destruct (digit_facts _ (isdigit_digit_char k)) as (_ & _ & Hdash & _ & Hplus & Hspace & _).
  unfold scan_int. cbn [skip_space]. rewrite Hspace. cbn [head_char].
  rewrite Hdash, Hplus. cbn [orb]. cbv zeta. cbn [head_char].
  rewrite isdigit_digit_char. reflexivity.
Qed.

Lemma scan_two_digits ov n rest :
  0 <= n < 100 -> isdigit (head_char rest) = false ->
  scan_int ov (two_digits n rest) = Some (n, rest).
Proof.
  intros Hn Hrest. unfold two_digits. rewrite scan_int_at_digit.
  cbn [scan_digits]. rewrite !isdigit_digit_char, !digit_value_digit_char.
  rewrite scan_digits_stop by exact Hrest.
  rewrite two_digits_value by exact Hn. rewrite to_int_small by lia. reflexivity.
Qed.

Lemma scan_four_digits ov n rest :
  0 <= n < 10000 -> isdigit (head_char rest) = false ->
  scan_int ov (four_digits n rest) = Some (n, rest).
Proof.
  intros Hn Hrest. unfold four_digits, two_digits. rewrite scan_int_at_digit.
  cbn [scan_digits]. rewrite !isdigit_digit_char, !digit_value_digit_char.
  rewrite scan_digits_stop by exact Hrest.
  rewrite four_digits_value by exact Hn. rewrite to_int_small by lia. reflexivity.
Qed.

Lemma atoi_two_digits ov n rest :
  0 <= n < 100 -> isdigit (head_char rest) = false -> atoi ov (two_digits n rest) = n.
Proof. intros Hn Hrest. unfold atoi. rewrite scan_two_digits by assumption. reflexivity. Qed.

Lemma atoi_four_digits ov n rest :
  0 <= n < 10000 -> isdigit (head_char rest) = false -> atoi ov (four_digits n rest) = n.
Proof. intros Hn Hrest. unfold atoi. rewrite scan_four_digits by assumption. reflexivity. Qed.

Lemma nonunique_length_plain c rest :
  plain_char c = true -> nonunique_length (String c rest) = 1 + nonunique_length rest.
Proof.
  unfold plain_char. intros H. apply negb_true_iff in H. cbn. rewrite H. reflexivity.
Qed.

Lemma nonunique_length_two_digits n rest :
  nonunique_length (two_digits n rest) = 2 + nonunique_length rest.
Proof.
  unfold two_digits. rewrite !nonunique_length_plain by apply plain_digit_char. lia.
Qed.

Lemma nonunique_length_unique u : unique_part u = true -> nonunique_length u = 0.
Proof.
  destruct u as [|c t]; cbn; [reflexivity|]. intros ->. rewrite orb_true_r. reflexivity.
Qed.

Lemma unique_part_no_digit u : unique_part u = true -> isdigit (head_char u) = false.
Proof.
  destruct u as [|c t]; cbn; [reflexivity|]. intros H. apply Ascii.eqb_eq in H. subst c.
  reflexivity.
Qed.

Lemma count_digits_two n rest :
  isdigit (head_char rest) = false -> count_digits (two_digits n rest) = 2.
Proof.
  intros Hrest. unfold two_digits. cbn [count_digits]. rewrite !isdigit_digit_char.
  destruct rest as [|c t]; cbn in *; [reflexivity|]. rewrite Hrest. reflexivity.
Qed.

Lemma count_digits_four n rest :
  isdigit (head_char rest) = false -> count_digits (four_digits n rest) = 4.
Proof.
  intros Hrest. unfold four_digits. cbn [count_digits]. rewrite !isdigit_digit_char.
  rewrite count_digits_two by exact Hrest. reflexivity.
Qed.

Section ReadingBack.

Context {E : Externals}.

Lemma clock_bounds c :
  clock_ok c = true ->
  0 <= dhour c < 100 /\ 0 <= dminute c < 100 /\ 0 <= dsecond c < 100.
Proof. unfold clock_ok. rewrite validate_time_spec. lia. Qed.

Lemma date_bounds d :
  date_ok d = true ->
  0 <= dyear d < 10000 /\ 0 <= dmonth d < 100 /\ 0 <= dday d < 100.
Proof. unfold date_ok. rewrite validate_date_spec. lia. Qed.

(** The time of day is read back from the name. *)
Lemma sscanf_clock_name c uniq :
  clock_ok c = true -> unique_part uniq = true ->
  sscanf_d_colon_d_colon_d int_overflow (clock_name c uniq)
  = (3, (dhour c, dminute c, dsecond c)).
Proof.
  intros Hc Hu. destruct (clock_bounds c Hc) as (Hh & Hm & Hs).
  unfold sscanf_d_colon_d_colon_d, clock_name.
  rewrite scan_two_digits by (exact Hh || reflexivity). cbn [scan_lit Ascii.eqb Bool.eqb].
  rewrite scan_two_digits by (exact Hm || reflexivity). cbn [scan_lit Ascii.eqb Bool.eqb].
  rewrite scan_two_digits by (exact Hs || apply unique_part_no_digit; exact Hu).
  reflexivity.
Qed.

(** Year and month are read back from the head of the path. *)
Lemma path_year_month_read yyyy mm rest :
  0 <= yyyy < 10000 -> 0 <= mm < 100 -> isdigit (head_char rest) = false ->
  path_year_month (year_month_path yyyy mm rest) = Some (yyyy, mm).
Proof.
  intros Hy Hm Hrest. unfold path_year_month, sscanf_d_slash_d, year_month_path.
  rewrite scan_four_digits by (exact Hy || reflexivity). cbn [scan_lit Ascii.eqb Bool.eqb].
  rewrite scan_two_digits by assumption. reflexivity.
Qed.

Lemma nonunique_length_day_name dd t1 t2 t3 c uniq :
  plain_char t1 = true -> plain_char t2 = true -> plain_char t3 = true ->
  unique_part uniq = true ->
  nonunique_length (day_name dd t1 t2 t3 c uniq) = 15.
Proof.
  intros H1 H2 H3 Hu. unfold day_name, clock_name.
  rewrite !nonunique_length_two_digits.
  rewrite (nonunique_length_plain "-") by reflexivity.
  rewrite (nonunique_length_plain t1), (nonunique_length_plain t2),
    (nonunique_length_plain t3) by assumption.
  rewrite (nonunique_length_plain "-") by reflexivity.
  rewrite nonunique_length_two_digits, (nonunique_length_plain ":") by reflexivity.
  rewrite nonunique_length_two_digits, (nonunique_length_plain ":") by reflexivity.
  rewrite nonunique_length_two_digits, nonunique_length_unique by exact Hu.
  reflexivity.
Qed.

Lemma nonunique_length_full_name d t1 t2 t3 c uniq :
  plain_char t1 = true -> plain_char t2 = true -> plain_char t3 = true ->
  unique_part uniq = true ->
  nonunique_length (full_name d t1 t2 t3 c uniq) = 23.
Proof.
  intros H1 H2 H3 Hu. unfold full_name, four_digits.
  rewrite !nonunique_length_plain by apply plain_digit_char.
  rewrite nonunique_length_two_digits, (nonunique_length_plain "-") by reflexivity.
  rewrite nonunique_length_two_digits, (nonunique_length_plain "-") by reflexivity.
  rewrite nonunique_length_day_name by assumption. reflexivity.
Qed.

End ReadingBack.

Section Decoded.

Context {E : Externals}.

(** A validated dive directory yields a dive with the timestamp of its
    decoded fields. *)
Lemma walk_validated_record root name entries st d c :
  validated_record root name d c ->
  walk_tree_directory root (Tree name entries) st
  = (GIT_WALK_OK, with_new_dive (utc_mktime (dive_tm d c)) (reset_at_depth_8 root st)).
Proof.
  intros (Hrec & Ht & Hc & Hd & Hdate).
  rewrite walk_record_candidate, Ht, Hc, Hd, Hdate by exact Hrec. reflexivity.
Qed.

(** A validated trip directory yields a trip for its decoded date. *)
Lemma walk_validated_trip root name entries st d :
  validated_trip root name d ->
  walk_tree_directory root (Tree name entries) st = (GIT_WALK_OK, with_new_trip d st).
Proof.
  intros (Htrip & Hd & Hdate).
  rewrite walk_trip_candidate, Hd, Hdate by exact Htrip. reflexivity.
Qed.

(** The name with year and month decodes to its own fields under any path. *)
Lemma full_name_decodes root d t1 t2 t3 c uniq :
  date_ok d = true -> clock_ok c = true ->
  plain_char t1 = true -> plain_char t2 = true -> plain_char t3 = true ->
  unique_part uniq = true ->
  validated_record root (full_name d t1 t2 t3 c uniq) d c.
Proof.
  intros Hd Hc H1 H2 H3 Hu.
  pose proof (nonunique_length_full_name d t1 t2 t3 c uniq H1 H2 H3 Hu) as Hlen.
  destruct (date_bounds d Hd) as (Hy & Hm & Hdd).
  assert (Hdigits : count_digits (full_name d t1 t2 t3 c uniq) = 4)
    by (apply count_digits_four; reflexivity).
  unfold validated_record. repeat split; try assumption.
  - unfold record_candidate, decode_candidate, colon_at_time.
    rewrite Hlen, Hdigits. reflexivity.
  - unfold decoded_time. rewrite Hlen.
    change (str_from (full_name d t1 t2 t3 c uniq) (23 - 8)) with (clock_name c uniq).
    rewrite sscanf_clock_name by assumption. destruct c; reflexivity.
  - unfold decoded_dive_date. rewrite Hlen. cbn [Z.ltb Z.leb Z.compare Pos.compare
      Pos.compare_cont Z.sub Z.add Z.opp Z.pos_sub Pos.pred_double].
    cbv zeta.
    change (str_from (full_name d t1 t2 t3 c uniq) (23 - 23)) with
      (four_digits (dyear d) (String "-" (two_digits (dmonth d) (String "-"
         (day_name (dday d) t1 t2 t3 c uniq))))).
    change (str_from (full_name d t1 t2 t3 c uniq) (23 - 18)) with
      (two_digits (dmonth d) (String "-" (day_name (dday d) t1 t2 t3 c uniq))).
    change (str_from (full_name d t1 t2 t3 c uniq) (23 - 15)) with
      (two_digits (dday d) (String "-" (String t1 (String t2 (String t3 (String "-"
         (clock_name c uniq))))))).
    rewrite atoi_four_digits, !atoi_two_digits by (assumption || reflexivity).
    destruct d; reflexivity.
Qed.

(** The name without year and month takes them from a path that starts
    'yyyy/mm'. *)
Lemma day_name_decodes d rest t1 t2 t3 c uniq :
  date_ok d = true -> clock_ok c = true ->
  isdigit (head_char rest) = false ->
  plain_char t1 = true -> plain_char t2 = true -> plain_char t3 = true ->
  unique_part uniq = true ->
  validated_record (year_month_path (dyear d) (dmonth d) rest)
    (day_name (dday d) t1 t2 t3 c uniq) d c.
Proof.
  intros Hd Hc Hrest H1 H2 H3 Hu.
  pose proof (nonunique_length_day_name (dday d) t1 t2 t3 c uniq H1 H2 H3 Hu) as Hlen.
  destruct (date_bounds d Hd) as (Hy & Hm & Hdd).
  assert (Hdigits : count_digits (day_name (dday d) t1 t2 t3 c uniq) = 2)
    by (apply count_digits_two; reflexivity).
  unfold validated_record. repeat split; try assumption.
  - unfold record_candidate, decode_candidate, colon_at_time.
    rewrite Hlen, Hdigits. reflexivity.
  - unfold decoded_time. rewrite Hlen.
    change (str_from (day_name (dday d) t1 t2 t3 c uniq) (15 - 8)) with (clock_name c uniq).
    rewrite sscanf_clock_name by assumption. destruct c; reflexivity.
  - unfold decoded_dive_date. rewrite Hlen. cbn [Z.ltb Z.leb Z.compare Pos.compare
      Pos.compare_cont Z.sub Z.add Z.opp Z.pos_sub Pos.pred_double].
    cbv zeta.
    rewrite path_year_month_read by assumption.
    change (str_from (day_name (dday d) t1 t2 t3 c uniq) (15 - 15))
      with (day_name (dday d) t1 t2 t3 c uniq).
    unfold day_name.
    rewrite atoi_two_digits by (assumption || reflexivity).
    destruct d; reflexivity.
Qed.

End Decoded.

(** C4. A dive directory named with year and month, whose date and time pass
    the validators, yields under any path a dive whose timestamp is
    [utc_mktime] of exactly the fields written in the name; named with the day
    only, it yields under a path that starts 'yyyy/mm' a dive with that year
    and month.  In both cases the decoded fields are the written ones. *)
Theorem written_fields_are_decoded (E : Externals) d c t1 t2 t3 uniq entries st :
  date_ok d = true -> clock_ok c = true ->
  plain_char t1 = true -> plain_char t2 = true -> plain_char t3 = true ->
  unique_part uniq = true ->
  (forall root,
      decoded_time (full_name d t1 t2 t3 c uniq) = Some c /\
      decoded_dive_date root (full_name d t1 t2 t3 c uniq) = Some d /\
      walk_tree_directory root (Tree (full_name d t1 t2 t3 c uniq) entries) st
      = (GIT_WALK_OK, with_new_dive (utc_mktime (dive_tm d c)) (reset_at_depth_8 root st))) /\
  (forall rest,
      isdigit (head_char rest) = false ->
      let root := year_month_path (dyear d) (dmonth d) rest in
      decoded_time (day_name (dday d) t1 t2 t3 c uniq) = Some c /\
      decoded_dive_date root (day_name (dday d) t1 t2 t3 c uniq) = Some d /\
      walk_tree_directory root (Tree (day_name (dday d) t1 t2 t3 c uniq) entries) st
      = (GIT_WALK_OK, with_new_dive (utc_mktime (dive_tm d c)) (reset_at_depth_8 root st))).
Proof.
  intros Hd Hc H1 H2 H3 Hu. split.
  - intros root.
    pose proof (full_name_decodes root d t1 t2 t3 c uniq Hd Hc H1 H2 H3 Hu) as Hv.
    split; [apply Hv|]. split; [apply Hv|].
    apply walk_validated_record. exact Hv.
  - intros rest Hrest root.
    pose proof (day_name_decodes d rest t1 t2 t3 c uniq Hd Hc Hrest H1 H2 H3 Hu) as Hv.
    split; [apply Hv|]. split; [apply Hv|].
    apply walk_validated_record. exact Hv.
Qed.

(** The names of the two examples, as the definitions write them. *)
Example names_as_written :
  full_name {| dyear := 2023; dmonth := 7; dday := 15 |} "0" "0" "1"
    {| dhour := 10; dminute := 30; dsecond := 0 |} "" = "2023-07-15-001-10:30:00" /\
  day_name 15 "0" "0" "1" {| dhour := 10; dminute := 30; dsecond := 0 |} "~a1b2"
  = "15-001-10:30:00~a1b2" /\
  year_month_path 2023 7 "/" = "2023/07/" /\
  trip_name 13 "someTrip" = "13-someTrip".
Proof. repeat split. Qed.

Lemma written_fields_are_decoded_witness :
  dive_table
    (snd (walk_tree_directory (E := E0) "some/other/path/"
            (Tree "2023-07-15-001-10:30:00" []) initial_state))
  = [{| when := 1689417000; number := 0; divetrip := None |}] /\
  dive_table
    (snd (walk_tree_directory (E := E0) "2023/07/"
            (Tree "15-001-10:30:00~a1b2" []) initial_state))
  = [{| when := 1689417000; number := 0; divetrip := None |}].
Proof.
  pose proof (written_fields_are_decoded E0
                {| dyear := 2023; dmonth := 7; dday := 15 |}
                {| dhour := 10; dminute := 30; dsecond := 0 |} "0" "0" "1" "" []
                initial_state eq_refl eq_refl eq_refl eq_refl eq_refl eq_refl) as [Hfull _].
  pose proof (written_fields_are_decoded E0
                {| dyear := 2023; dmonth := 7; dday := 15 |}
                {| dhour := 10; dminute := 30; dsecond := 0 |} "0" "0" "1" "~a1b2" []
                initial_state eq_refl eq_refl eq_refl eq_refl eq_refl eq_refl) as [_ Hday].
  split.
  - destruct (Hfull "some/other/path/") as (_ & _ & Hwalk).
    change (full_name {| dyear := 2023; dmonth := 7; dday := 15 |} "0" "0" "1"
              {| dhour := 10; dminute := 30; dsecond := 0 |} "")
      with "2023-07-15-001-10:30:00" in Hwalk.
    rewrite Hwalk. reflexivity.
  - destruct (Hday "/" eq_refl) as (_ & _ & Hwalk).
    change (day_name _ _ _ _ _ _) with "15-001-10:30:00~a1b2" in Hwalk.
    change (year_month_path _ _ _) with "2023/07/" in Hwalk.
    rewrite Hwalk. reflexivity.
Defined.

(** ** Trip directories *)

Lemma no_colon_char_at s : no_colon s = true -> forall k, Ascii.eqb (char_at s k) ":" = false.
Proof.
  induction s as [|c t IH]; intros H k.
  - unfold char_at. destruct (k <? 0); reflexivity.
  - cbn in H. apply andb_prop in H as [Hc Ht]. apply negb_true_iff in Hc.
    destruct (Z.lt_trichotomy k 0) as [Hk | [-> | Hk]].
    + rewrite char_at_neg by exact Hk. reflexivity.
    + exact Hc.
    + replace k with (1 + (k - 1)) by lia. rewrite char_at_cons by lia. apply IH. exact Ht.
Qed.

Section Trips.

Context {E : Externals}.

(** 'nn-' and a rest without ':' decodes, under a path that starts 'yyyy/mm',
    to that day of that month and year. *)
Lemma trip_name_decodes d rest tail :
  date_ok d = true -> isdigit (head_char rest) = false -> no_colon tail = true ->
  validated_trip (year_month_path (dyear d) (dmonth d) rest) (trip_name (dday d) tail) d.
Proof.
  intros Hd Hrest Htail. destruct (date_bounds d Hd) as (Hy & Hm & Hdd).
  unfold validated_trip. repeat split; try assumption.
  - unfold trip_candidate, colon_at_time.
    replace (count_digits (trip_name (dday d) tail)) with 2
      by (symmetry; apply count_digits_two; reflexivity).
    rewrite no_colon_char_at.
    + reflexivity.
    + unfold trip_name, two_digits. cbn [no_colon].
      destruct (digit_facts _ (isdigit_digit_char (dday d / 10))) as (_ & _ & _ & -> & _).
      destruct (digit_facts _ (isdigit_digit_char (dday d))) as (_ & _ & _ & -> & _).
      exact Htail.
  - unfold decoded_trip_date. rewrite path_year_month_read by assumption.
    unfold trip_name. rewrite atoi_two_digits by (assumption || reflexivity).
    destruct d; reflexivity.
Qed.

End Trips.

(** With the [utc_mktime] of the spec, the broken-down time of a trip is read
    as midnight of its date, and that of a dive as its date and time. *)
Lemma trip_timestamp_spec d :
  date_ok d = true ->
  utc_mktime_spec (trip_tm d) = utc_seconds (dyear d) (dmonth d) (dday d) 0 0 0.
Proof.
  unfold date_ok. rewrite validate_date_spec. intros Hd.
  unfold utc_mktime_spec, trip_tm. cbn [tm_year tm_mon tm_mday tm_hour tm_min tm_sec].
  destruct (Z.gtb_spec (dyear d) 1900); [|lia].
  f_equal. lia.
Qed.

Lemma dive_timestamp_spec d c :
  date_ok d = true ->
  utc_mktime_spec (dive_tm d c)
  = utc_seconds (dyear d) (dmonth d) (dday d) (dhour c) (dminute c) (dsecond c).
Proof.
  unfold date_ok. rewrite validate_date_spec. intros Hd.
  unfold utc_mktime_spec, dive_tm. cbn [tm_year tm_mon tm_mday tm_hour tm_min tm_sec].
  destruct (Z.gtb_spec (dyear d - 1900) 1900); [lia|].
  f_equal; lia.
Qed.

(** C6, as the code has it.  A trip directory 'nn-' and a rest without ':',
    under a path that starts 'yyyy/mm', whose date passes the date validator,
    yields one new trip whose timestamp is midnight UTC of that date, and this
    trip becomes the active trip; dives and the active dive stay as they
    are. *)
Theorem trip_directory_anchor (E : Externals) d rest tail entries st :
  (forall t, utc_mktime t = utc_mktime_spec t) ->
  date_ok d = true ->
  isdigit (head_char rest) = false ->
  no_colon tail = true ->
  let r := walk_tree_directory (year_month_path (dyear d) (dmonth d) rest)
             (Tree (trip_name (dday d) tail) entries) st in
  fst r = GIT_WALK_OK /\
  trip_heap (snd r) =
    trip_heap st ++
      [{| trip_when := utc_seconds (dyear d) (dmonth d) (dday d) 0 0 0; trip_dives := [] |}] /\
  active_trip (snd r) = Some (length (trip_heap st)) /\
  dive_table (snd r) = dive_table st /\
  active_dive (snd r) = active_dive st.
Proof.
  intros Hspec Hd Hrest Htail r. subst r.
  rewrite (walk_validated_trip _ _ _ _ d) by (apply trip_name_decodes; assumption).
  cbn [fst snd].
  destruct (with_new_trip_fields d st) as (-> & -> & -> & -> & _).
  rewrite Hspec, trip_timestamp_spec by exact Hd.
  repeat split.
Qed.

Lemma trip_directory_anchor_witness :
  trip_heap
    (snd (walk_tree_directory (E := E0) "2023/07/" (Tree "13-someTrip" []) initial_state))
  = [{| trip_when := 1689206400; trip_dives := [] |}] /\
  active_trip
    (snd (walk_tree_directory (E := E0) "2023/07/" (Tree "13-someTrip" []) initial_state))
  = Some 0%nat.
Proof.
  pose proof (trip_directory_anchor E0 {| dyear := 2023; dmonth := 7; dday := 13 |}
                "/" "someTrip" [] initial_state (fun t => eq_refl) eq_refl eq_refl eq_refl)
    as (_ & Hheap & Hactive & _).
  split; [exact Hheap | exact Hactive].
Defined.

(** C6 as stated fails: '01-trip' under '1970/01/' has the shape, and its
    date is a day of the calendar, but the year is not above 1970: the
    directory is skipped, no trip is created and none is active. *)
Lemma epoch_trip_is_skipped :
  trip_name 1 "trip" = "01-trip" /\ year_month_path 1970 1 "/" = "1970/01/" /\
  walk_tree_directory (E := E0) "1970/01/" (Tree "01-trip" []) initial_state
  = (GIT_WALK_SKIP, initial_state) /\
  trip_heap (snd (walk_tree_directory (E := E0) "1970/01/" (Tree "01-trip" []) initial_state))
  = [] /\
  active_trip (snd (walk_tree_directory (E := E0) "1970/01/" (Tree "01-trip" []) initial_state))
  = None.
Proof. repeat split. Qed.

(** ** A visit is an effect on the state *)

Section VisitEffects.

Context {E : Externals}.

(** The answer of the directory callback does not depend on the state, and
    the state changes in one of four ways. *)
Lemma walk_tree_directory_effect root name entries st :
  walk_tree_directory root (Tree name entries) st
  = (fst (directory_effect root name), apply_effect root (snd (directory_effect root name)) st).
Proof.
  unfold directory_effect.
  destruct (record_candidate name) eqn:Hrec; [|destruct (trip_candidate name) eqn:Htrip].
  - rewrite walk_record_candidate by exact Hrec.
    destruct (decoded_time name) as [c|]; [|reflexivity].
    destruct (clock_ok c); [|reflexivity].
    destruct (decoded_dive_date root name) as [d|]; [|reflexivity].
    destruct (date_ok d); reflexivity.
  - rewrite walk_trip_candidate by exact Htrip.
    destruct (decoded_trip_date root name) as [d|]; [|reflexivity].
    destruct (date_ok d); reflexivity.
  - rewrite walk_no_candidate by assumption. reflexivity.
Qed.

Lemma directory_effect_code root name :
  fst (directory_effect root name) = 0 \/ fst (directory_effect root name) = 1.
Proof.
  pose proof (walk_tree_directory_code root name [] initial_state) as H.
  rewrite walk_tree_directory_effect in H. exact H.
Qed.

(** A file changes nothing but the number of the active dive. *)
Lemma walk_tree_file_effect root entry st :
  let st' := snd (walk_tree_file root entry st) in
  dive_table st' =
    match active_dive st, number_written entry with
    | Some i, Some v => alter (set_number v) i (dive_table st)
    | _, _ => dive_table st
    end /\
  trip_heap st' = trip_heap st /\
  active_dive st' = active_dive st /\
  active_trip st' = active_trip st.
Proof.
  unfold walk_tree_file, number_written, parse_divecomputer_entry, parse_dive_entry,
    parse_trip_entry, store_number. cbv zeta.
  destruct (active_dive st) as [i|] eqn:Hd; cbn [non_null andb].
  - destruct (strncmp (git_tree_entry_name entry) "Divecomputer" 12 =? 0).
    { destruct (git_tree_entry_blob entry); repeat split; assumption. }
    destruct (strncmp (git_tree_entry_name entry) "Dive" 4 =? 0).
    { destruct (git_tree_entry_blob entry); [|repeat split; assumption].
      destruct (is_nul (head_char (str_from (git_tree_entry_name entry) 4)));
        repeat split; assumption. }
    destruct (non_null (active_trip st) && (strcmp (git_tree_entry_name entry) "00-Trip" =? 0)).
    { destruct (git_tree_entry_blob entry); repeat split; assumption. }
    repeat split; assumption.
  - destruct (non_null (active_trip st) && (strcmp (git_tree_entry_name entry) "00-Trip" =? 0)).
    { destruct (git_tree_entry_blob entry); repeat split; assumption. }
    repeat split; assumption.
Qed.

End VisitEffects.

(** ** Walking a tree twice *)

Section Rewalk.

Context {E : Externals}.

Local Open Scope nat_scope.

Variables kd kt : nat.
Variables stale_d stale_t : option nat.
Hypothesis stale_d_old : forall j, stale_d = Some j -> j < kd.
Hypothesis stale_t_old : forall j, stale_t = Some j -> j < kt.

Abbreviation related := (rewalk kd kt stale_d stale_t).

Lemma rewalk_reset root b s :
  related b s -> related (reset_at_depth_8 root b) (reset_at_depth_8 root s).
Proof.
  intros [od nd ot nt Hd Hkd HD Ht Hkt HT Had Hat].
  unfold reset_at_depth_8. destruct (strlen root =? 8)%Z.
  - apply (Rewalk _ _ _ _ _ _ od nd ot nt); try assumption. cbn. left. reflexivity.
  - apply (Rewalk _ _ _ _ _ _ od nd ot nt); assumption.
Qed.

Lemma rewalk_new_trip d b s :
  related b s -> related (with_new_trip d b) (with_new_trip d s).
Proof.
  intros [od nd ot nt Hd Hkd HD Ht Hkt HT Had Hat].
  destruct (with_new_trip_fields d b) as (Hb1 & Hb2 & Hb3 & Hb4 & _).
  destruct (with_new_trip_fields d s) as (Hs1 & Hs2 & Hs3 & Hs4 & _).
  apply (Rewalk _ _ _ _ _ _ od nd ot
           (nt ++ [{| trip_when := utc_mktime (trip_tm d); trip_dives := [] |}])).
  - rewrite Hs1. exact Hd.
  - exact Hkd.
  - rewrite Hb1. exact HD.
  - rewrite Hs2, Ht, <- app_assoc. reflexivity.
  - exact Hkt.
  - rewrite Hb2. apply Forall2_app; [exact HT|].
    constructor; [|constructor]. split; reflexivity.
  - rewrite Hb3, Hs3. exact Had.
  - rewrite Hb4, Hs4. cbn. f_equal.
    rewrite Ht, length_app, Hkt. rewrite (Forall2_length _ _ _ HT). reflexivity.
Qed.

Lemma trip_matches_attach g g' i :
  trip_matches kd g g' ->
  trip_matches kd
    {| trip_when := trip_when g; trip_dives := trip_dives g ++ [i] |}
    {| trip_when := trip_when g'; trip_dives := trip_dives g' ++ [kd + i] |}.
Proof.
  intros [Hw Hm]. split; cbn; [exact Hw|]. rewrite Hm, fmap_app. reflexivity.
Qed.

Lemma rewalk_new_dive w b s :
  related b s -> related (with_new_dive w b) (with_new_dive w s).
Proof.
  intros [od nd ot nt Hd Hkd HD Ht Hkt HT Had Hat].
  assert (Hlen : length (dive_table s) = kd + length (dive_table b)).
  { rewrite Hd, length_app, Hkd, (Forall2_length _ _ _ HD). reflexivity. }
  destruct (active_trip b) as [t|] eqn:Hb; cbn in Hat.
  - (* both walks are inside the trip made by this walk *)
    rewrite (with_new_dive_in_trip _ _ _ Hb), (with_new_dive_in_trip _ _ _ Hat).
    apply (Rewalk _ _ _ _ _ _ od
             (nd ++ [{| when := w; number := 0%Z; divetrip := Some (kt + t) |}]) ot
             (alter (fun g => {| trip_when := trip_when g;
                                 trip_dives := trip_dives g ++ [length (dive_table s)] |})
                    t nt)); cbn.
    + rewrite Hd, <- app_assoc. reflexivity.
    + exact Hkd.
    + apply Forall2_app; [exact HD|]. constructor; [|constructor].
      repeat split.
    + rewrite Ht, <- Hkt. apply alter_app_r.
    + exact Hkt.
    + apply Forall2_alter; [exact HT|]. intros g g' _ _ Hg.
      rewrite Hlen. apply trip_matches_attach. exact Hg.
    + rewrite Hlen. reflexivity.
    + reflexivity.
  - rewrite (with_new_dive_no_trip _ _ Hb).
    destruct (active_trip s) as [j|] eqn:Hs.
    + (* the second walk still holds the trip the first one ended with *)
      assert (Hstale : stale_t = Some j) by (destruct Hat as [Hat|Hat]; congruence).
      rewrite (with_new_dive_in_trip _ _ _ Hs).
      apply (Rewalk _ _ _ _ _ _ od
               (nd ++ [{| when := w; number := 0%Z; divetrip := Some j |}])
               (alter (fun g => {| trip_when := trip_when g;
                                   trip_dives := trip_dives g ++ [length (dive_table s)] |})
                      j ot) nt); cbn.
      * rewrite Hd, <- app_assoc. reflexivity.
      * exact Hkd.
      * apply Forall2_app; [exact HD|]. constructor; [|constructor].
        repeat split. cbn. right. symmetry. exact Hstale.
      * rewrite Ht. apply alter_app_l. rewrite Hkt. apply stale_t_old. exact Hstale.
      * rewrite length_alter. exact Hkt.
      * exact HT.
      * rewrite Hlen. reflexivity.
      * right. symmetry. exact Hstale.
    + rewrite (with_new_dive_no_trip _ _ Hs).
      apply (Rewalk _ _ _ _ _ _ od
               (nd ++ [{| when := w; number := 0%Z; divetrip := None |}]) ot nt); cbn.
      * rewrite Hd, <- app_assoc. reflexivity.
      * exact Hkd.
      * apply Forall2_app; [exact HD|]. constructor; [|constructor].
        repeat split. cbn. left. reflexivity.
      * exact Ht.
      * exact Hkt.
      * exact HT.
      * rewrite Hlen. reflexivity.
      * left. reflexivity.
Qed.

Lemma rewalk_effect root f b s :
  related b s -> related (apply_effect root f b) (apply_effect root f s).
Proof.
  intros H. destruct f as [| | w | d]; cbn [apply_effect].
  - exact H.
  - apply rewalk_reset. exact H.
  - apply rewalk_new_dive, rewalk_reset. exact H.
  - apply rewalk_new_trip. exact H.
Qed.

Lemma dive_matches_set_number v d d' :
  dive_matches kt stale_t d d' -> dive_matches kt stale_t (set_number v d) (set_number v d').
Proof. intros (Hw & _ & Ht). repeat split; cbn; assumption. Qed.

Lemma rewalk_file root entry b s :
  related b s ->
  related (snd (walk_tree_file root entry b)) (snd (walk_tree_file root entry s)).
Proof.
  intros [od nd ot nt Hd Hkd HD Ht Hkt HT Had Hat].
  destruct (walk_tree_file_effect root entry b) as (Hb1 & Hb2 & Hb3 & Hb4).
  destruct (walk_tree_file_effect root entry s) as (Hs1 & Hs2 & Hs3 & Hs4).
  set (b' := snd (walk_tree_file root entry b)) in *.
  set (s' := snd (walk_tree_file root entry s)) in *.
  assert (Hslots : slot_matches kd stale_d (active_dive b') (active_dive s') /\
                   slot_matches kt stale_t (active_trip b') (active_trip s'))
    by (rewrite Hb3, Hb4, Hs3, Hs4; split; assumption).
  destruct Hslots as [Had' Hat'].
  rewrite <- Hb2 in HT. rewrite <- Hs2 in Ht.
  destruct (number_written entry) as [v|].
  - destruct (active_dive b) as [i|] eqn:Hb; cbn in Had.
    + rewrite Had in Hs1.
      apply (Rewalk _ _ _ _ _ _ od (alter (set_number v) i nd) ot nt); try assumption.
      * rewrite Hs1, Hd, <- Hkd. apply alter_app_r.
      * rewrite Hb1. apply Forall2_alter; [exact HD|].
        intros d d' _ _ Hm. apply dive_matches_set_number. exact Hm.
    + rewrite <- Hb1 in HD. destruct (active_dive s) as [j|] eqn:Hs.
      * assert (Hstale : stale_d = Some j) by (destruct Had as [Had|Had]; congruence).
        apply (Rewalk _ _ _ _ _ _ (alter (set_number v) j od) nd ot nt); try assumption.
        -- rewrite Hs1, Hd. apply alter_app_l. rewrite Hkd. apply stale_d_old. exact Hstale.
        -- rewrite length_alter. exact Hkd.
      * apply (Rewalk _ _ _ _ _ _ od nd ot nt); try assumption.
        rewrite Hs1. exact Hd.
  - assert (Hb1' : dive_table b' = dive_table b) by (rewrite Hb1; destruct (active_dive b); reflexivity).
    assert (Hs1' : dive_table s' = dive_table s) by (rewrite Hs1; destruct (active_dive s); reflexivity).
    rewrite <- Hb1' in HD. rewrite <- Hs1' in Hd.
    apply (Rewalk _ _ _ _ _ _ od nd ot nt); assumption.
Qed.

(** The callback, on any entry, keeps the two walks related and answers both
    with the same code. *)
Lemma rewalk_callback path entry b s :
  related b s ->
  fst (walk_tree_cb path entry b) = fst (walk_tree_cb path entry s) /\
  related (snd (walk_tree_cb path entry b)) (snd (walk_tree_cb path entry s)).
Proof.
  intros H. destruct entry as [name blob | name entries].
  - rewrite !walk_tree_cb_blob. split; [reflexivity|]. apply rewalk_file. exact H.
  - cbn [walk_tree_cb]. rewrite !walk_tree_directory_effect. split; [reflexivity|].
    apply rewalk_effect. exact H.
Qed.

Lemma rewalk_entries (walk : git_tree_entry -> state -> Z * state) entries :
  Forall (fun e => forall b s, related b s ->
                   fst (walk e b) = 0%Z /\ fst (walk e s) = 0%Z /\
                   related (snd (walk e b)) (snd (walk e s))) entries ->
  forall b s, related b s ->
  related (snd (walk_entries walk entries b)) (snd (walk_entries walk entries s)).
Proof.
  induction 1 as [|e rest He _ IH]; intros b s H; cbn; [exact H|].
  destruct (He b s H) as (Hb & Hs & H').
  destruct (walk e b) as [cb b'], (walk e s) as [cs s']. cbn in *. subst cb cs. cbn.
  apply IH. exact H'.
Qed.

Lemma rewalk_entry entry : forall path b s,
  related b s ->
  related (snd (walk_entry walk_tree_cb path entry b))
          (snd (walk_entry walk_tree_cb path entry s)).
Proof.
  induction entry as [name blob | name entries IH] using git_tree_entry_forall_ind;
    intros path b s H.
  - cbn [walk_entry]. rewrite !walk_tree_cb_blob. cbn. apply rewalk_file. exact H.
  - cbn [walk_entry walk_tree_cb]. rewrite !walk_tree_directory_effect.
    pose proof (rewalk_effect path (snd (directory_effect path name)) b s H) as H'.
    destruct (directory_effect_code path name) as [-> | ->]; cbn; [|exact H'].
    apply rewalk_entries; [|exact H'].
    eapply Forall_impl; [exact IH|]. intros e He b0 s0 H0.
    split; [apply walk_entry_ok|]. split; [apply walk_entry_ok|]. apply He. exact H0.
Qed.

Lemma rewalk_tree tree b s :
  related b s ->
  related (snd (load_dives_from_tree tree b)) (snd (load_dives_from_tree tree s)).
Proof.
  intros H. unfold load_dives_from_tree, git_tree_walk.
  pose proof (rewalk_entries (walk_entry walk_tree_cb "") tree) as Hwalk.
  destruct (walk_entries (walk_entry walk_tree_cb "") tree b) as [cb b'] eqn:Hb.
  destruct (walk_entries (walk_entry walk_tree_cb "") tree s) as [cs s'] eqn:Hs.
  cbn. change b' with (snd (cb, b')). change s' with (snd (cs, s')).
  rewrite <- Hb, <- Hs. apply Hwalk; [|exact H].
  apply Forall_forall. intros e _ b0 s0 H0.
  split; [apply walk_entry_ok|]. split; [apply walk_entry_ok|]. apply rewalk_entry. exact H0.
Qed.

End Rewalk.

Section SlotsInRange.

Context {E : Externals}.

Local Open Scope nat_scope.

Lemma slots_in_range_effect root f st :
  slots_in_range st -> slots_in_range (apply_effect root f st).
Proof.
  assert (Hreset : forall st0, slots_in_range st0 -> slots_in_range (reset_at_depth_8 root st0)).
  { intros st0 [Hd Ht]. unfold reset_at_depth_8. destruct (strlen root =? 8)%Z.
    - split; [exact Hd|]. cbn. discriminate.
    - split; assumption. }
  intros H. destruct f as [| | w | d]; cbn [apply_effect].
  - exact H.
  - apply Hreset, H.
  - destruct (Hreset st H) as [Hd Ht]. set (r := reset_at_depth_8 root st) in *.
    destruct (active_trip r) as [t|] eqn:Hr.
    + rewrite (with_new_dive_in_trip _ _ _ Hr). split; cbn.
      * intros i [= <-]. rewrite length_app. cbn. lia.
      * intros i [= <-]. rewrite length_alter. apply Ht. reflexivity.
    + rewrite (with_new_dive_no_trip _ _ Hr). split; cbn.
      * intros i [= <-]. rewrite length_app. cbn. lia.
      * discriminate.
  - destruct H as [Hd Ht].
    destruct (with_new_trip_fields d st) as (H1 & H2 & H3 & H4 & _).
    split.
    + rewrite H1, H3. exact Hd.
    + rewrite H2, H4. intros i [= <-]. rewrite length_app. cbn. lia.
Qed.

Lemma slots_in_range_callback path entry st :
  slots_in_range st -> slots_in_range (snd (walk_tree_cb path entry st)).
Proof.
  intros H. destruct entry as [name blob | name entries].
  - rewrite walk_tree_cb_blob. cbn [snd].
    destruct (walk_tree_file_effect path (Blob name blob) st) as (H1 & H2 & H3 & H4).
    destruct H as [Hd Ht]. split.
    + rewrite H3. intros i Hi. rewrite H1.
      destruct (active_dive st), (number_written (Blob name blob));
        rewrite ?length_alter; apply Hd; exact Hi.
    + rewrite H2, H4. exact Ht.
  - cbn [walk_tree_cb]. rewrite walk_tree_directory_effect. cbn [snd].
    apply slots_in_range_effect. exact H.
Qed.

Lemma slots_in_range_entries (walk : git_tree_entry -> state -> Z * state) entries :
  Forall (fun e => forall st, slots_in_range st -> slots_in_range (snd (walk e st))) entries ->
  forall st, slots_in_range st -> slots_in_range (snd (walk_entries walk entries st)).
Proof.
  induction 1 as [|e rest He _ IH]; intros st H; cbn; [exact H|].
  specialize (He st H). destruct (walk e st) as [code st']. cbn in He.
  destruct (negb (code =? 0)%Z); [exact He|]. apply IH. exact He.
Qed.

Lemma slots_in_range_entry entry : forall path st,
  slots_in_range st -> slots_in_range (snd (walk_entry walk_tree_cb path entry st)).
Proof.
  induction entry as [name blob | name entries IH] using git_tree_entry_forall_ind;
    intros path st H.
  - cbn [walk_entry]. rewrite walk_tree_cb_blob. cbn.
    pose proof (slots_in_range_callback path (Blob name blob) st H) as H'.
    rewrite walk_tree_cb_blob in H'. exact H'.
  - pose proof (slots_in_range_callback path (Tree name entries) st H) as H'.
    cbn [walk_entry]. destruct (walk_tree_cb path (Tree name entries) st) as [code st'].
    cbn [snd] in H'.
    destruct (code <? 0)%Z; [exact H'|]. destruct (code >? 0)%Z; [exact H'|].
    apply slots_in_range_entries; [|exact H'].
    eapply Forall_impl; [exact IH|]. intros e He st0. apply He.
Qed.

(** After a walk the two slots point into the tables. *)
Lemma slots_in_range_tree tree st :
  slots_in_range st -> slots_in_range (snd (load_dives_from_tree tree st)).
Proof.
  intros H. unfold load_dives_from_tree, git_tree_walk.
  pose proof (slots_in_range_entries (walk_entry walk_tree_cb "") tree) as Hwalk.
  destruct (walk_entries (walk_entry walk_tree_cb "") tree st) as [code st'] eqn:Hst.
  cbn. change st' with (snd (code, st')). rewrite <- Hst. apply Hwalk; [|exact H].
  apply Forall_forall. intros e _ st0. apply slots_in_range_entry.
Qed.

Lemma slots_in_range_initial : slots_in_range initial_state.
Proof. split; discriminate. Qed.

End SlotsInRange.

(** C9, as the code has it.  Walk a tree from the initial state and then once
    more from the state the first walk left behind.  The second walk adds as
    many dives and trips as the first, in the same order, with the same
    timestamps and, for the dives, the same numbers; a dive that the first
    walk put into a trip is in the corresponding new trip, and the new trips
    have the corresponding dives as members.  A dive that the first walk left
    without a trip is without one again, or is in the trip that was still
    active when the first walk ended.  When the two slots are emptied between
    the walks, that last case does not arise. *)
Theorem second_walk_matches_first (E : Externals) tree :
  let s1 := snd (load_dives_from_tree tree initial_state) in
  let kd := length (dive_table s1) in
  let kt := length (trip_heap s1) in
  (let s2 := snd (load_dives_from_tree tree s1) in
   Forall2 (dive_matches kt (active_trip s1)) (dive_table s1) (drop kd (dive_table s2)) /\
   Forall2 (trip_matches kd) (trip_heap s1) (drop kt (trip_heap s2))) /\
  (let s2 := snd (load_dives_from_tree tree (clear_slots s1)) in
   Forall2 (dive_matches kt None) (dive_table s1) (drop kd (dive_table s2)) /\
   Forall2 (trip_matches kd) (trip_heap s1) (drop kt (trip_heap s2))).
Proof.
  intros s1 kd kt.
  pose proof (slots_in_range_tree tree initial_state slots_in_range_initial) as [Hd Ht].
  fold s1 in Hd, Ht.
  split.
  - intros s2.
    assert (H0 : rewalk kd kt (active_dive s1) (active_trip s1) initial_state s1).
    { apply (Rewalk _ _ _ _ _ _ (dive_table s1) [] (trip_heap s1) []).
      - symmetry. apply app_nil_r.
      - reflexivity.
      - apply Forall2_nil_2.
      - symmetry. apply app_nil_r.
      - reflexivity.
      - apply Forall2_nil_2.
      - right. reflexivity.
      - right. reflexivity. }
    apply (rewalk_tree kd kt _ _ Hd Ht tree) in H0.
    fold s1 s2 in H0.
    destruct H0 as [od nd ot nt Hdt Hkd HD Htt Hkt HT _ _].
    rewrite Hdt, Htt, !drop_app_length' by (symmetry; assumption). split; assumption.
  - intros s2.
    assert (H0 : rewalk kd kt None None initial_state (clear_slots s1)).
    { apply (Rewalk _ _ _ _ _ _ (dive_table s1) [] (trip_heap s1) []).
      - symmetry. apply app_nil_r.
      - reflexivity.
      - apply Forall2_nil_2.
      - symmetry. apply app_nil_r.
      - reflexivity.
      - apply Forall2_nil_2.
      - left. reflexivity.
      - left. reflexivity. }
    apply (rewalk_tree kd kt None None) with (tree := tree) in H0; try discriminate.
    fold s1 s2 in H0.
    destruct H0 as [od nd ot nt Hdt Hkd HD Htt Hkt HT _ _].
    rewrite Hdt, Htt, !drop_app_length' by (symmetry; assumption). split; assumption.
Qed.

(** C9 as stated fails on [tree_with_top_level_dive]: the first walk leaves
    its first dive, '2023-07-15-001-10:30:00', without a trip; the second walk
    puts the dive it makes for the same directory into trip 0, the trip of the
    first walk. *)
Lemma second_walk_joins_stale_trip :
  divetrip <$>
    dive_table (snd (load_dives_from_tree (E := E0) tree_with_top_level_dive initial_state))
      !! 0%nat
  = Some None /\
  length (dive_table (snd (load_dives_from_tree (E := E0) tree_with_top_level_dive
                             initial_state))) = 2%nat /\
  divetrip <$>
    dive_table
      (snd (load_dives_from_tree (E := E0) tree_with_top_level_dive
              (snd (load_dives_from_tree (E := E0) tree_with_top_level_dive initial_state))))
      !! 2%nat
  = Some (Some 0%nat).
Proof. repeat split. Qed.

(** ** The theorems at work on concrete names and locations *)

(** The two sample states are states of a walk. *)
Example sample_states_reached :
  walk_tree_directory (E := E0) "2023/07/" (Tree "13-trip" []) initial_state
  = (GIT_WALK_OK, state_in_trip) /\
  snd (load_dives_from_tree (E := E0)
         [Tree "2023" [Tree "07" [Tree "15-001-10:30:00" [Blob "Dive-7" (Some "")]]]]
         initial_state)
  = state_in_dive.
Proof. split; vm_compute; reflexivity. Qed.

Lemma directory_classifier_witness :
  walk_tree_directory (E := E0) "" (Tree "2023" []) state_in_trip
  = (GIT_WALK_OK, state_in_trip) /\
  walk_tree_directory (E := E0) "2023/" (Tree "07x" []) state_in_trip
  = (GIT_WALK_SKIP, state_in_trip) /\
  walk_tree_directory (E := E0) "2023/07/" (Tree "2023-pictures" []) state_in_trip
  = (GIT_WALK_SKIP, state_in_trip).
Proof.
  split; [|split].
  - apply (proj1 (directory_classifier E0 "" "2023" [] state_in_trip)).
    split; [reflexivity | right; reflexivity].
  - apply (proj1 (proj2 (directory_classifier E0 "2023/" "07x" [] state_in_trip))).
    unfold rejected_name. right. split; discriminate.
  - apply (proj1 (proj2 (proj2 (proj2
             (directory_classifier E0 "2023/07/" "2023-pictures" [] state_in_trip)))));
      reflexivity.
Defined.

Lemma failures_local_or_fatal_witness :
  snd (git_load_dives (E := E0) "git /tmp/dives:master" state_in_dive)
  = with_error (Unable_to_open_git_repository "/tmp/dives" (Some "master")) state_in_dive.
Proof.
  apply (proj2 (proj2 (proj2 (failures_local_or_fatal E0)))
           "git /tmp/dives:master" state_in_dive).
  apply (Open_fails (E := E0) "git /tmp/dives:master"). reflexivity.
Defined.

(** A load that succeeds, then two that fail at the branch and at the tree:
    the dive of the first load is still there, and the failed loads return
    -1. *)
Example failed_loads_keep_the_dives :
  let E1 := spec_externals sample_store in
  let r1 := git_load_dives (E := E1) "git   /tmp/dives:master  " initial_state in
  let r2 := git_load_dives (E := E1) "git /tmp/dives:nosuchbranch" (snd r1) in
  let r3 := git_load_dives (E := E1) "git /tmp/dives:broken" (snd r2) in
  fst r1 = 0 /\ fst r2 = -1 /\ fst r3 = -1 /\
  dive_table (snd r3) = [{| when := 1689417000; number := 0; divetrip := None |}] /\
  errors (snd r3) =
    [Unable_to_read_dive_file;
     Unable_to_look_up_branch (Some "nosuchbranch");
     Could_not_look_up_tree (Some "broken")].
Proof. vm_compute. repeat split. Qed.

(** The timestamps of some known instants. *)
Example utc_seconds_known_instants :
  utc_seconds 1970 1 1 0 0 0 = 0 /\
  utc_seconds 2000 2 29 0 0 0 = 951782400 /\
  utc_seconds 2000 3 1 0 0 0 = 951868800 /\
  utc_seconds 2023 7 13 0 0 0 = 1689206400 /\
  utc_seconds 2023 7 15 10 30 0 = 1689417000.
Proof. repeat split. Qed.

(** Midnight is the start of the day: the next day begins 86400 seconds
    later. *)
Lemma utc_seconds_next_day y m d :
  utc_seconds y m (d + 1) 0 0 0 = utc_seconds y m d 0 0 0 + 86400.
Proof. unfold utc_seconds, days_from_civil. lia. Qed.

(** * Further properties of the loader *)

(** ** The length without the unique part *)

Lemma strlen_nonneg s : 0 <= strlen s.
Proof. induction s as [|c t IH]; cbn; [lia|]. destruct (is_nul c); lia. Qed.

Lemma plain_char_not_nul c : plain_char c = true -> is_nul c = false.
Proof. unfold plain_char. destruct (is_nul c); [discriminate | reflexivity]. Qed.

Lemma strlen_plain c t : is_nul c = false -> strlen (String c t) = 1 + strlen t.
Proof. intros H. cbn. rewrite H. reflexivity. Qed.

Lemma nonunique_length_all_plain s hex :
  all_plain s = true ->
  nonunique_length s = strlen s /\
  nonunique_length (s +:+ String "~" hex) = strlen s.
Proof.
  induction s as [|c t IH]; cbn; [split; reflexivity|].
  intros H. apply andb_prop in H as [Hc Ht]. destruct (IH Ht) as [IH1 IH2].
  pose proof (plain_char_not_nul _ Hc) as Hnul.
  unfold plain_char in Hc. apply negb_true_iff in Hc.
  change (String c t +:+ String "~" hex) with (String c (t +:+ String "~" hex)).
  cbn [nonunique_length]. rewrite Hc, Hnul, IH1, IH2.
  split; reflexivity.
Qed.

(** X1. [nonunique_length] stops at the first '~' or at the end of the name,
    whichever comes first: its result lies between 0 and the length of the
    name, the character there is the terminator or '~', and no character
    before it is either.  For a name without '~' it is the length of the name,
    with or without a unique part added. *)
Theorem nonunique_length_stops_at_tilde s :
  let n := nonunique_length s in
  0 <= n <= strlen s /\
  (char_at s n = NUL \/ char_at s n = "~"%char) /\
  (forall i, 0 <= i < n -> plain_char (char_at s i) = true) /\
  (forall hex, all_plain s = true ->
               n = strlen s /\ nonunique_length (s +:+ String "~" hex) = n).
Proof.
  cbv zeta. split; [|split; [|split]].
  - induction s as [|c t IH]; cbn; [lia|].
    destruct (is_nul c); cbn; [lia|]. destruct (Ascii.eqb c "~"); lia.
  - induction s as [|c t IH]; [left; reflexivity|].
    cbn [nonunique_length].
    destruct (is_nul c) eqn:Hn; cbn [orb].
    + left. rewrite char_at_0. apply is_nul_iff. exact Hn.
    + destruct (Ascii.eqb c "~") eqn:Ht.
      * right. rewrite char_at_0. apply Ascii.eqb_eq. exact Ht.
      * rewrite char_at_cons by apply nonunique_length_nonneg. exact IH.
  - induction s as [|c t IH]; cbn [nonunique_length]; intros i Hi; [lia|].
    destruct (is_nul c || Ascii.eqb c "~") eqn:Hc; [lia|].
    destruct (Z.eq_dec i 0) as [-> | Hne].
    + rewrite char_at_0. unfold plain_char. rewrite Hc. reflexivity.
    + replace i with (1 + (i - 1)) by lia. rewrite char_at_cons by lia. apply IH. lia.
  - intros hex Hs. destruct (nonunique_length_all_plain s hex Hs) as [H1 H2].
    rewrite H1, H2. split; reflexivity.
Qed.

Lemma nonunique_length_stops_at_tilde_witness :
  nonunique_length "13-someTrip" = strlen "13-someTrip" /\
  nonunique_length "13-someTrip~a1b2" = nonunique_length "13-someTrip".
Proof.
  apply (proj2 (proj2 (proj2 (nonunique_length_stops_at_tilde "13-someTrip"))) "a1b2").
  reflexivity.
Defined.

(** ** What the visit of a file can do *)

Section FileVisits.

Context {E : Externals}.

(** A file adds at most one diagnostic. *)
Lemma walk_tree_file_errors root entry st :
  errors (snd (walk_tree_file root entry st)) = errors st \/
  exists d, errors (snd (walk_tree_file root entry st)) = errors st ++ [d].
Proof.
  unfold walk_tree_file, parse_divecomputer_entry, parse_dive_entry, parse_trip_entry,
    store_number. cbv zeta.
  repeat match goal with
         | |- context [if ?b then _ else _] => destruct b
         | |- context [match git_tree_entry_blob ?e with _ => _ end] =>
             destruct (git_tree_entry_blob e)
         | |- context [match active_dive ?s with _ => _ end] => destruct (active_dive s)
         end; cbn; first [left; reflexivity | right; eexists; reflexivity].
Qed.

Lemma dive_kept_refl (l : list dive) : Forall2 dive_kept l l.
Proof. apply Forall_Forall2_diag, Forall_forall. intros d _. split; reflexivity. Qed.

Lemma dive_kept_alter v i (l : list dive) : Forall2 dive_kept l (alter (set_number v) i l).
Proof.
  apply Forall2_alter_r; [apply dive_kept_refl|].
  intros d d' _ _ [Hw Ht]. split; cbn; assumption.
Qed.

End FileVisits.

(** X2. The visit of a file, whatever its name and whether its blob can be
    read or not, leaves both slots, every trip and the number of dives as they
    are; no dive but the active one is touched, and every dive keeps its
    timestamp and its trip.  At most one diagnostic is added. *)
Theorem file_visit_touches_one_number (E : Externals) root entry st :
  let st' := snd (walk_tree_file root entry st) in
  active_dive st' = active_dive st /\
  active_trip st' = active_trip st /\
  trip_heap st' = trip_heap st /\
  length (dive_table st') = length (dive_table st) /\
  (forall j, active_dive st <> Some j -> dive_table st' !! j = dive_table st !! j) /\
  Forall2 dive_kept (dive_table st) (dive_table st') /\
  (errors st' = errors st \/ exists d, errors st' = errors st ++ [d]).
Proof.
  intros st'.
  destruct (walk_tree_file_effect root entry st) as (Hd & Ht & Had & Hat).
  fold st' in Hd, Ht, Had, Hat.
  split; [exact Had|]. split; [exact Hat|]. split; [exact Ht|].
  assert (Hcases : dive_table st' = dive_table st \/
                   exists i v, active_dive st = Some i /\
                               dive_table st' = alter (set_number v) i (dive_table st)).
  { rewrite Hd. destruct (active_dive st) as [i|]; [|left; reflexivity].
    destruct (number_written entry) as [v|]; [|left; reflexivity].
    right. exists i, v. split; reflexivity. }
  split; [|split; [|split]].
  - destruct Hcases as [-> | (i & v & _ & ->)]; [reflexivity | apply length_alter].
  - intros j Hj. destruct Hcases as [-> | (i & v & Hi & ->)]; [reflexivity|].
    apply list_lookup_alter_ne. congruence.
  - destruct Hcases as [-> | (i & v & _ & ->)];
      [apply dive_kept_refl | apply dive_kept_alter].
  - apply walk_tree_file_errors.
Qed.

Lemma file_visit_touches_one_number_witness :
  dive_table (snd (walk_tree_file (E := E0) "2023/07/15-001-10:30:00/"
                     (Blob "Dive-5" (Some "")) state_in_dive)) !! 1%nat
  = dive_table state_in_dive !! 1%nat.
Proof.
  apply (file_visit_touches_one_number E0 "2023/07/15-001-10:30:00/"
           (Blob "Dive-5" (Some "")) state_in_dive).
  discriminate.
Defined.

(** X3. While a dive is active, a file whose name starts 'Divecomputer' goes
    to the dive computer parser, never to the dive parser, although its name
    starts 'Dive' as well: whatever follows the prefix, the state is left as
    it is when the blob can be read, and the failure is reported as that of a
    dive computer file when it cannot. *)
Theorem divecomputer_file_sets_nothing (E : Externals) root suffix blob st i :
  active_dive st = Some i ->
  walk_tree_file root (Blob ("Divecomputer" +:+ suffix) blob) st =
  match blob with
  | Some _ => (0, st)
  | None => report_error Unable_to_read_divecomputer_file st
  end.
Proof.
  intros Hactive. unfold walk_tree_file. cbn [git_tree_entry_name]. cbv zeta.
  rewrite Hactive. cbn [non_null andb].
  change (strncmp ("Divecomputer" +:+ suffix) "Divecomputer" 12 =? 0) with true. cbv iota.
  unfold parse_divecomputer_entry. cbn [git_tree_entry_blob].
  destruct blob; reflexivity.
Qed.

Lemma divecomputer_file_sets_nothing_witness :
  walk_tree_file (E := E0) "2023/07/15-001-10:30:00/" (Blob "Divecomputer-5" (Some ""))
    state_in_dive
  = (0, state_in_dive).
Proof.
  apply (divecomputer_file_sets_nothing E0 "2023/07/15-001-10:30:00/" "-5" (Some "")
           state_in_dive 0%nat).
  reflexivity.
Defined.

Section FilesWithoutContext.

Context {E : Externals}.

Lemma file_without_context root entry st :
  active_dive st = None ->
  active_trip st = None ->
  walk_tree_file root entry st
  = (GIT_WALK_SKIP, with_error (Unknown_file root (git_tree_entry_name entry) None None) st).
Proof.
  intros Hd Ht. unfold walk_tree_file. cbv zeta. rewrite Hd, Ht. reflexivity.
Qed.

Lemma walk_entries_cons (walk : git_tree_entry -> state -> Z * state) e rest st :
  fst (walk e st) = 0 ->
  walk_entries walk (e :: rest) st = walk_entries walk rest (snd (walk e st)).
Proof.
  intros H. cbn [walk_entries]. destruct (walk e st) as [code st']. cbn in H. subst code.
  reflexivity.
Qed.

Lemma walk_entry_blob path name blob st :
  walk_entry walk_tree_cb path (Blob name blob) st
  = (0, snd (walk_tree_file path (Blob name blob) st)).
Proof. cbn [walk_entry]. rewrite walk_tree_cb_blob. reflexivity. Qed.

End FilesWithoutContext.

(** X4. While no dive and no trip is active, every file, a 'Dive' or a
    '00-Trip' file as well, is an unknown file.  A run of files met in that
    state is walked to its end, each file adds the diagnostic with its path
    and name, in order, and nothing else changes. *)
Theorem files_without_context_are_unknown (E : Externals) path
    (files : list (string * option string)) st :
  active_dive st = None ->
  active_trip st = None ->
  walk_entries (walk_entry walk_tree_cb path) ((fun f => Blob (fst f) (snd f)) <$> files) st
  = (0, add_errors ((fun f => Unknown_file path (fst f) None None) <$> files) st).
Proof.
  revert st. induction files as [|[name blob] rest IH]; intros st Hd Ht.
  - cbn. unfold add_errors. rewrite app_nil_r. destruct st; reflexivity.
  - rewrite fmap_cons. cbn [fst snd].
    rewrite walk_entries_cons by (rewrite walk_entry_blob; reflexivity).
    rewrite walk_entry_blob, file_without_context by assumption. cbn [snd git_tree_entry_name].
    rewrite IH by (cbn; assumption).
    unfold add_errors, with_error. cbn. rewrite <- app_assoc. reflexivity.
Qed.

Lemma files_without_context_are_unknown_witness :
  walk_entries (walk_entry (walk_tree_cb (E := E0)) "")
    [Blob "Dive-5" (Some ""); Blob "00-Trip" None] initial_state
  = (0, add_errors [Unknown_file "" "Dive-5" None None; Unknown_file "" "00-Trip" None None]
          initial_state).
Proof.
  apply (files_without_context_are_unknown E0 "" [("Dive-5", Some ""); ("00-Trip", None)]
           initial_state); reflexivity.
Defined.

(** ** What the visit of a directory can do *)

Section DirectoryVisits.

Context {E : Externals}.

Lemma reset_errors root st : errors (reset_at_depth_8 root st) = errors st.
Proof. apply reset_fields. Qed.

Lemma with_new_dive_errors w st : errors (with_new_dive w st) = errors st.
Proof.
  destruct (active_trip st) as [t|] eqn:H.
  - rewrite (with_new_dive_in_trip _ _ _ H). reflexivity.
  - rewrite (with_new_dive_no_trip _ _ H). reflexivity.
Qed.

Lemma apply_effect_errors root f st : errors (apply_effect root f st) = errors st.
Proof.
  destruct f as [| | w | d]; cbn [apply_effect].
  - reflexivity.
  - apply reset_errors.
  - rewrite with_new_dive_errors. apply reset_errors.
  - apply with_new_trip_fields.
Qed.

(** Only an accepted directory creates a dive or a trip. *)
Lemma creating_effect_code root name :
  (forall w, snd (directory_effect root name) = New_dive w ->
             fst (directory_effect root name) = GIT_WALK_OK) /\
  (forall d, snd (directory_effect root name) = New_trip d ->
             fst (directory_effect root name) = GIT_WALK_OK).
Proof.
  unfold directory_effect.
  split; intros x;
    repeat match goal with
           | |- context [if ?b then _ else _] => destruct b
           | |- context [match ?o with Some _ => _ | None => _ end] => destruct o
           end; cbn; intros H; first [reflexivity | discriminate H].
Qed.

Lemma rejected_walk root name entries st :
  rejected_name name -> walk_tree_directory root (Tree name entries) st = (GIT_WALK_SKIP, st).
Proof.
  unfold rejected_name, walk_tree_directory. cbn [git_tree_entry_name]. cbv zeta.
  set (digits := count_digits name). set (c := char_at name digits).
  intros [[H2 H4]|[Hn Hd]].
  - apply Z.eqb_neq in H2, H4. rewrite H2, H4. reflexivity.
  - destruct (negb (digits =? 4) && negb (digits =? 2)); [reflexivity|].
    destruct (is_nul c) eqn:Hc; [apply is_nul_iff in Hc; contradiction|].
    destruct (Ascii.eqb c "-") eqn:Hc'; [apply Ascii.eqb_eq in Hc'; contradiction|].
    reflexivity.
Qed.

End DirectoryVisits.

(** X5. The visit of a directory reports nothing, and it creates at most one
    object: either nothing is created, and dives, trips and the active dive
    stay as they are; or the directory is accepted and one dive is appended,
    which becomes the active dive, the number of trips staying as it is; or the
    directory is accepted and one trip without dives is appended, which becomes
    the active trip, the dives and the active dive staying as they are. *)
Theorem directory_visit_creates_at_most_one (E : Externals) root name entries st :
  let r := walk_tree_directory root (Tree name entries) st in
  errors (snd r) = errors st /\
  ((dive_table (snd r) = dive_table st /\ trip_heap (snd r) = trip_heap st /\
    active_dive (snd r) = active_dive st) \/
   (fst r = GIT_WALK_OK /\ (exists d, dive_table (snd r) = dive_table st ++ [d]) /\
    length (trip_heap (snd r)) = length (trip_heap st) /\
    active_dive (snd r) = Some (length (dive_table st))) \/
   (fst r = GIT_WALK_OK /\
    (exists g, trip_heap (snd r) = trip_heap st ++ [g] /\ trip_dives g = []) /\
    dive_table (snd r) = dive_table st /\
    active_trip (snd r) = Some (length (trip_heap st)) /\
    active_dive (snd r) = active_dive st)).
Proof.
  intros r. subst r. rewrite walk_tree_directory_effect. cbn [fst snd].
  split; [apply apply_effect_errors|].
  destruct (creating_effect_code root name) as [Hdive Htrip].
  destruct (snd (directory_effect root name)) as [| | w | d] eqn:Hf; cbn [apply_effect].
  - left. repeat split.
  - left. destruct (reset_fields root st) as (-> & -> & -> & _). repeat split.
  - right. left. split; [apply (Hdive w); reflexivity|].
    destruct (reset_fields root st) as (Hd & Ht & _).
    set (st1 := reset_at_depth_8 root st) in *.
    destruct (active_trip st1) as [t|] eqn:Hactive.
    + rewrite (with_new_dive_in_trip _ _ _ Hactive). cbn.
      rewrite length_alter, Hd, Ht. repeat split. eexists. reflexivity.
    + rewrite (with_new_dive_no_trip _ _ Hactive). cbn.
      rewrite Hd, Ht. repeat split. eexists. reflexivity.
  - right. right. split; [apply (Htrip d); reflexivity|].
    destruct (with_new_trip_fields d st) as (-> & -> & -> & -> & _).
    repeat split. eexists. split; reflexivity.
Qed.

(** ** Invariants of a walk *)

Section WalkPreorder.

Context {E : Externals}.

Variable R : state -> state -> Prop.
Hypothesis R_refl : forall st, R st st.
Hypothesis R_trans : forall st1 st2 st3, R st1 st2 -> R st2 st3 -> R st1 st3.
Hypothesis R_callback : forall path entry st, R st (snd (walk_tree_cb path entry st)).

Lemma preorder_entries (walk : git_tree_entry -> state -> Z * state) entries :
  Forall (fun e => forall st, R st (snd (walk e st))) entries ->
  forall st, R st (snd (walk_entries walk entries st)).
Proof.
  induction 1 as [|e rest He _ IH]; intros st; cbn; [apply R_refl|].
  specialize (He st). destruct (walk e st) as [code st']. cbn in He.
  destruct (negb (code =? 0)); [exact He|].
  eapply R_trans; [exact He | apply IH].
Qed.

Lemma preorder_entry entry : forall path st,
  R st (snd (walk_entry walk_tree_cb path entry st)).
Proof.
  induction entry as [name blob | name entries IH] using git_tree_entry_forall_ind;
    intros path st.
  - rewrite walk_entry_blob. cbn [snd].
    pose proof (R_callback path (Blob name blob) st) as H.
    rewrite walk_tree_cb_blob in H. exact H.
  - pose proof (R_callback path (Tree name entries) st) as H.
    cbn [walk_entry]. destruct (walk_tree_cb path (Tree name entries) st) as [code st'].
    cbn [snd] in H.
    destruct (code <? 0); [exact H|]. destruct (code >? 0); [exact H|].
    eapply R_trans; [exact H|]. apply preorder_entries.
    eapply Forall_impl; [exact IH|]. intros e He st0. apply He.
Qed.

(** What every visit keeps, the walk of a whole tree keeps. *)
Lemma preorder_tree tree st : R st (snd (load_dives_from_tree tree st)).
Proof.
  unfold load_dives_from_tree, git_tree_walk.
  pose proof (preorder_entries (walk_entry walk_tree_cb "") tree) as Hwalk.
  destruct (walk_entries (walk_entry walk_tree_cb "") tree st) as [code st'] eqn:Hst.
  cbn. change st' with (snd (code, st')). rewrite <- Hst. apply Hwalk.
  apply Forall_forall. intros e _ st0. apply preorder_entry.
Qed.

End WalkPreorder.

Section Extends.

Context {E : Externals}.

Lemma trip_kept_refl (l : list dive_trip) : Forall2 trip_kept l l.
Proof. apply Forall_Forall2_diag, Forall_forall. intros g _. split; reflexivity. Qed.

Lemma extends_refl st : extends st st.
Proof.
  split; [|split].
  - exists (dive_table st), []. split; [symmetry; apply app_nil_r | apply dive_kept_refl].
  - exists (trip_heap st), []. split; [symmetry; apply app_nil_r | apply trip_kept_refl].
  - reflexivity.
Qed.

Lemma dive_kept_trans d1 d2 d3 : dive_kept d1 d2 -> dive_kept d2 d3 -> dive_kept d1 d3.
Proof. intros [H1 H2] [H3 H4]. split; congruence. Qed.

Lemma trip_kept_trans g1 g2 g3 : trip_kept g1 g2 -> trip_kept g2 g3 -> trip_kept g1 g3.
Proof. intros [H1 H2] [H3 H4]. split; [congruence | etrans; eassumption]. Qed.

Lemma kept_trans {A} (P : A -> A -> Prop) (l1 o1 n1 o2 n2 : list A) :
  (forall x y z, P x y -> P y z -> P x z) ->
  Forall2 P l1 o1 -> Forall2 P (o1 ++ n1) o2 ->
  exists old new, o2 ++ n2 = old ++ new /\ Forall2 P l1 old.
Proof.
  intros Htrans H1 H2. apply Forall2_app_inv_l in H2 as (k1 & k2 & Hk1 & _ & ->).
  exists k1, (k2 ++ n2). split; [symmetry; apply app_assoc|].
  revert k1 Hk1. induction H1 as [|x y l o Hxy _ IH]; intros k1 Hk1.
  - apply Forall2_nil_inv_l in Hk1. subst k1. constructor.
  - apply Forall2_cons_inv_l in Hk1 as (z & k & Hyz & Hk & ->).
    constructor; [eapply Htrans; eassumption | apply IH; exact Hk].
Qed.

Lemma extends_trans st1 st2 st3 : extends st1 st2 -> extends st2 st3 -> extends st1 st3.
Proof.
  intros ((od1 & nd1 & Hd1 & HD1) & (ot1 & nt1 & Ht1 & HT1) & He1)
         ((od2 & nd2 & Hd2 & HD2) & (ot2 & nt2 & Ht2 & HT2) & He2).
  split; [|split].
  - rewrite Hd1 in HD2. rewrite Hd2.
    exact (kept_trans dive_kept _ _ _ _ _ dive_kept_trans HD1 HD2).
  - rewrite Ht1 in HT2. rewrite Ht2.
    exact (kept_trans trip_kept _ _ _ _ _ trip_kept_trans HT1 HT2).
  - etrans; eassumption.
Qed.

Lemma extends_effect root f st : extends st (apply_effect root f st).
Proof.
  assert (Hreset : extends st (reset_at_depth_8 root st)).
  { destruct (reset_fields root st) as (Hd & Ht & _ & He & _).
    split; [|split].
    - exists (dive_table st), []. rewrite Hd, app_nil_r. split; [reflexivity | apply dive_kept_refl].
    - exists (trip_heap st), []. rewrite Ht, app_nil_r. split; [reflexivity | apply trip_kept_refl].
    - rewrite He. reflexivity. }
  destruct f as [| | w | d]; cbn [apply_effect].
  - apply extends_refl.
  - exact Hreset.
  - eapply extends_trans; [exact Hreset|].
    set (st1 := reset_at_depth_8 root st).
    destruct (active_trip st1) as [t|] eqn:Hactive.
    + rewrite (with_new_dive_in_trip _ _ _ Hactive). split; [|split]; cbn.
      * eexists _, _. split; [reflexivity | apply dive_kept_refl].
      * eexists _, []. rewrite app_nil_r. split; [reflexivity|].
        apply Forall2_alter_r; [apply trip_kept_refl|].
        intros g g' _ _ [Hw Hp]. split; cbn; [exact Hw|]. apply prefix_app_r. exact Hp.
      * reflexivity.
    + rewrite (with_new_dive_no_trip _ _ Hactive). split; [|split]; cbn.
      * eexists _, _. split; [reflexivity | apply dive_kept_refl].
      * eexists _, []. rewrite app_nil_r. split; [reflexivity | apply trip_kept_refl].
      * reflexivity.
  - destruct (with_new_trip_fields d st) as (Hd & Ht & _ & _ & He).
    split; [|split].
    + exists (dive_table st), []. rewrite Hd, app_nil_r. split; [reflexivity | apply dive_kept_refl].
    + eexists _, _. split; [exact Ht | apply trip_kept_refl].
    + rewrite He. reflexivity.
Qed.

Lemma extends_callback path entry st : extends st (snd (walk_tree_cb path entry st)).
Proof.
  destruct entry as [name blob | name entries].
  - rewrite walk_tree_cb_blob. cbn [snd].
    destruct (walk_tree_file_effect path (Blob name blob) st) as (Hd & Ht & _ & _).
    split; [|split].
    + eexists _, []. rewrite app_nil_r. split; [reflexivity|]. rewrite Hd.
      destruct (active_dive st); [|apply dive_kept_refl].
      destruct (number_written (Blob name blob)); [apply dive_kept_alter | apply dive_kept_refl].
    + eexists _, []. rewrite app_nil_r. split; [reflexivity|]. rewrite Ht. apply trip_kept_refl.
    + destruct (walk_tree_file_errors path (Blob name blob) st) as [-> | [d ->]];
        [reflexivity | apply prefix_app_r; reflexivity].
  - cbn [walk_tree_cb]. rewrite walk_tree_directory_effect. cbn [snd]. apply extends_effect.
Qed.

End Extends.

(** X6. Nothing a walk finds in the state is lost or rewritten, whatever the
    tree holds: after the walk the dive table starts with as many dives as
    before, each with the timestamp and the trip it had (only a number can
    have changed), the trips start with the trips of before, each with its
    date and with the dives it listed still first in its list, and the
    diagnostics of before are still there, first. *)
Theorem walk_keeps_what_was_loaded (E : Externals) tree st :
  extends st (snd (load_dives_from_tree tree st)).
Proof.
  apply (preorder_tree extends).
  - apply extends_refl.
  - apply extends_trans.
  - apply extends_callback.
Qed.

(** ** How walks compose *)

Section Composition.

Context {E : Externals}.

Lemma walk_entries_app (walk : git_tree_entry -> state -> Z * state) l1 l2 :
  (forall e st, fst (walk e st) = 0) ->
  forall st,
    walk_entries walk (l1 ++ l2) st = walk_entries walk l2 (snd (walk_entries walk l1 st)).
Proof.
  intros Hok. induction l1 as [|e rest IH]; intros st; [reflexivity|].
  rewrite <- app_comm_cons, !walk_entries_cons by apply Hok. apply IH.
Qed.

(** The visit of a directory node: its effect, and then its children under
    the longer path when the directory is accepted. *)
Lemma walk_entry_tree path name entries st :
  walk_entry walk_tree_cb path (Tree name entries) st =
  if fst (directory_effect path name) =? 0
  then walk_entries (walk_entry walk_tree_cb (path +:+ name +:+ "/")) entries
         (apply_effect path (snd (directory_effect path name)) st)
  else (0, apply_effect path (snd (directory_effect path name)) st).
Proof.
  cbn [walk_entry walk_tree_cb]. rewrite walk_tree_directory_effect.
  destruct (directory_effect_code path name) as [-> | ->]; reflexivity.
Qed.

End Composition.

(** X7. Walking a list of sibling entries is walking its first part and then,
    from the state that leaves, the rest: no entry can stop the walk, so the
    load of two lists of entries one after the other is the load of the second
    from the state the load of the first left behind. *)
Theorem load_of_concatenation (E : Externals) tree1 tree2 st :
  load_dives_from_tree (tree1 ++ tree2) st
  = load_dives_from_tree tree2 (snd (load_dives_from_tree tree1 st)).
Proof.
  unfold load_dives_from_tree, git_tree_walk.
  rewrite walk_entries_app by (intros e st0; apply walk_entry_ok).
  destruct (walk_entries (walk_entry walk_tree_cb "") tree1 st) as [code st1]. cbn [snd].
  reflexivity.
Qed.

(** X8. A directory whose name is rejected, because it does not start with
    two or four digits or has another character than '-' after them, is
    passed over with everything below it: whatever the subtree holds, the
    state after the directory is the state before it, and a load goes on with
    the siblings that follow as if the directory were not there. *)
Theorem rejected_subtree_is_passed_over (E : Externals) path name entries rest st :
  rejected_name name ->
  walk_entry walk_tree_cb path (Tree name entries) st = (0, st) /\
  load_dives_from_tree (Tree name entries :: rest) st = load_dives_from_tree rest st.
Proof.
  intros Hrej.
  assert (Hskip : forall p, walk_entry walk_tree_cb p (Tree name entries) st = (0, st)).
  { intros p. cbn [walk_entry walk_tree_cb]. rewrite rejected_walk by exact Hrej. reflexivity. }
  split; [apply Hskip|].
  unfold load_dives_from_tree, git_tree_walk.
  rewrite walk_entries_cons by (rewrite Hskip; reflexivity).
  rewrite Hskip. reflexivity.
Qed.

Lemma rejected_subtree_is_passed_over_witness :
  load_dives_from_tree (E := E0)
    [Tree "pictures" [Tree "2023" [Tree "07" [Tree "15-001-10:30:00" []]]]; Tree "2023" []]
    initial_state
  = load_dives_from_tree (E := E0) [Tree "2023" []] initial_state.
Proof.
  apply (rejected_subtree_is_passed_over E0 "" "pictures"
           [Tree "2023" [Tree "07" [Tree "15-001-10:30:00" []]]] [Tree "2023" []]
           initial_state).
  left. split; discriminate.
Defined.

(** ** What a tree yields *)

Section TreeYield.

Context {E : Externals}.

Variable proj : state -> list Z.
Variable select : dir_effect -> list Z.
Hypothesis proj_file : forall path entry st, proj (snd (walk_tree_file path entry st)) = proj st.
Hypothesis proj_effect : forall root f st, proj (apply_effect root f st) = proj st ++ select f.

Lemma yield_entries (walk : git_tree_entry -> state -> Z * state) (yield : git_tree_entry -> list Z)
    entries :
  Forall (fun e => forall st, fst (walk e st) = 0 /\ proj (snd (walk e st)) = proj st ++ yield e)
         entries ->
  forall st, proj (snd (walk_entries walk entries st)) = proj st ++ flat_map yield entries.
Proof.
  induction 1 as [|e rest He _ IH]; intros st.
  - cbn. rewrite app_nil_r. reflexivity.
  - destruct (He st) as [Hcode Hproj].
    rewrite walk_entries_cons by exact Hcode.
    rewrite IH, Hproj. cbn [flat_map]. rewrite app_assoc. reflexivity.
Qed.

Lemma yield_entry entry : forall path st,
  proj (snd (walk_entry walk_tree_cb path entry st)) = proj st ++ entry_yield select path entry.
Proof.
  induction entry as [name blob | name entries IH] using git_tree_entry_forall_ind;
    intros path st.
  - rewrite walk_entry_blob. cbn [snd entry_yield]. rewrite proj_file, app_nil_r. reflexivity.
  - rewrite walk_entry_tree. cbn [entry_yield].
    destruct (fst (directory_effect path name) =? 0).
    + rewrite (yield_entries _ (entry_yield select (path +:+ name +:+ "/"))).
      * rewrite proj_effect, app_assoc. reflexivity.
      * eapply Forall_impl; [exact IH|]. intros e He st0.
        split; [apply walk_entry_ok | apply He].
    + cbn [snd]. rewrite proj_effect, app_nil_r. reflexivity.
Qed.

Lemma yield_tree tree st :
  proj (snd (load_dives_from_tree tree st)) = proj st ++ flat_map (entry_yield select "") tree.
Proof.
  unfold load_dives_from_tree, git_tree_walk.
  pose proof (yield_entries (walk_entry walk_tree_cb "") (entry_yield select "") tree) as H.
  destruct (walk_entries (walk_entry walk_tree_cb "") tree st) as [code st'] eqn:Hst.
  cbn [snd]. change st' with (snd (code, st')). rewrite <- Hst. apply H.
  apply Forall_forall. intros e _ st0. split; [apply walk_entry_ok | apply yield_entry].
Qed.

End TreeYield.

Section Timestamps.

Context {E : Externals}.

Lemma when_alter_number v (l : list dive) : forall i,
  when <$> alter (set_number v) i l = when <$> l.
Proof.
  induction l as [|d l IH]; intros [|i]; cbn; try reflexivity.
  f_equal. apply IH.
Qed.

Lemma trip_when_alter (f : dive_trip -> dive_trip) (l : list dive_trip) :
  (forall g, trip_when (f g) = trip_when g) ->
  forall i, trip_when <$> alter f i l = trip_when <$> l.
Proof.
  intros Hf. induction l as [|g l IH]; intros [|i]; cbn; try reflexivity.
  - rewrite Hf. reflexivity.
  - f_equal. apply IH.
Qed.

Lemma dive_times_file path entry st :
  when <$> dive_table (snd (walk_tree_file path entry st)) = when <$> dive_table st.
Proof.
  destruct (walk_tree_file_effect path entry st) as (-> & _).
  destruct (active_dive st); [|reflexivity].
  destruct (number_written entry); [apply when_alter_number | reflexivity].
Qed.

Lemma trip_times_file path entry st :
  trip_when <$> trip_heap (snd (walk_tree_file path entry st)) = trip_when <$> trip_heap st.
Proof. destruct (walk_tree_file_effect path entry st) as (_ & -> & _). reflexivity. Qed.

Lemma dive_times_effect root f st :
  when <$> dive_table (apply_effect root f st) = (when <$> dive_table st) ++ effect_dive f.
Proof.
  destruct (reset_fields root st) as (Hd & _).
  destruct f as [| | w | d]; cbn [apply_effect effect_dive]; rewrite ?app_nil_r.
  - reflexivity.
  - rewrite Hd. reflexivity.
  - destruct (with_new_dive_table w (reset_at_depth_8 root st)) as (x & -> & Hw & _).
    rewrite fmap_app, Hd. cbn. rewrite Hw. reflexivity.
  - destruct (with_new_trip_fields d st) as (-> & _). reflexivity.
Qed.

Lemma trip_times_effect root f st :
  trip_when <$> trip_heap (apply_effect root f st) = (trip_when <$> trip_heap st) ++ effect_trip f.
Proof.
  destruct (reset_fields root st) as (_ & Ht & _).
  destruct f as [| | w | d]; cbn [apply_effect effect_trip]; rewrite ?app_nil_r.
  - reflexivity.
  - rewrite Ht. reflexivity.
  - set (st1 := reset_at_depth_8 root st) in *.
    destruct (active_trip st1) as [t|] eqn:Hactive.
    + rewrite (with_new_dive_in_trip _ _ _ Hactive). cbn [trip_heap].
      rewrite trip_when_alter by reflexivity. exact (f_equal (fmap trip_when) Ht).
    + rewrite (with_new_dive_no_trip _ _ Hactive). cbn [trip_heap].
      exact (f_equal (fmap trip_when) Ht).
  - destruct (with_new_trip_fields d st) as (_ & -> & _). rewrite fmap_app. reflexivity.
Qed.

End Timestamps.

(** X9. The timestamps of the dives and of the trips that a walk adds are
    read off the names in the tree alone, whatever the state it starts from
    and whatever the files hold: they are, in pre-order, those of the dive and
    trip directories that decode and pass the validators, as far as the walk
    reaches them through accepted directories. *)
Theorem walk_yields_what_names_say (E : Externals) tree st :
  when <$> dive_table (snd (load_dives_from_tree tree st))
  = (when <$> dive_table st) ++ flat_map (entry_yield effect_dive "") tree /\
  trip_when <$> trip_heap (snd (load_dives_from_tree tree st))
  = (trip_when <$> trip_heap st) ++ flat_map (entry_yield effect_trip "") tree.
Proof.
  split.
  - apply (yield_tree (fun s => when <$> dive_table s) effect_dive).
    + apply dive_times_file.
    + apply dive_times_effect.
  - apply (yield_tree (fun s => trip_when <$> trip_heap s) effect_trip).
    + apply trip_times_file.
    + apply trip_times_effect.
Qed.

(** What the tree of the example yields: the dive at the top and the dive in
    the trip, and the one trip. *)
Example yield_of_tree_with_top_level_dive :
  flat_map (entry_yield (E := E0) effect_dive "") tree_with_top_level_dive
  = [1689417000; 1689328800] /\
  flat_map (entry_yield (E := E0) (effect_trip (E := E0)) "") tree_with_top_level_dive
  = [1689206400].
Proof. split; vm_compute; reflexivity. Qed.

(** ** The location and the status of a load *)

Lemma git_load_dives_unfold {E : Externals} where_ st :
  git_load_dives where_ st =
  match git_repository_open (fst (split_location where_)) with
  | None =>
      report_error
        (Unable_to_open_git_repository (fst (split_location where_))
           (snd (split_location where_))) st
  | Some repo => do_git_load repo (snd (split_location where_)) st
  end.
Proof.
  unfold git_load_dives, split_location. cbv zeta.
  destruct (split_last ":" (rtrim (cstr (skip_space (str_from where_ 3))))) as [[l b]|];
    reflexivity.
Qed.

(** X10. A load either fails to resolve its location to a tree, and then
    returns what the report of that failure returns, -1, with nothing but the
    diagnostic added; or the repository opens, the branch is found and leads to
    a tree, and then the load returns 0 with the state the walk of that tree
    leaves, whatever was reported for files on the way. *)
Theorem load_status (E : Externals) where_ st :
  let r := git_load_dives where_ st in
  let loc := fst (split_location where_) in
  let branch := snd (split_location where_) in
  (exists d, resolution_failure where_ d /\ r = (-1, with_error d st)) \/
  (exists repo ref tree,
      git_repository_open loc = Some repo /\
      git_branch_lookup repo branch = Some ref /\
      git_reference_peel ref = Some tree /\
      r = (0, snd (git_tree_walk tree walk_tree_cb st))).
Proof.
  cbv zeta. rewrite git_load_dives_unfold. unfold do_git_load, load_dives_from_tree.
  destruct (git_repository_open (fst (split_location where_))) as [repo|] eqn:Hopen.
  - destruct (git_branch_lookup repo (snd (split_location where_))) as [ref|] eqn:Hlook.
    + destruct (git_reference_peel ref) as [tree|] eqn:Hpeel.
      * right. exists repo, ref, tree.
        split; [reflexivity|]. split; [exact Hlook|]. split; [exact Hpeel|].
        destruct (git_tree_walk tree walk_tree_cb st); reflexivity.
      * left. eexists. split; [eapply Peel_fails; eassumption | reflexivity].
    + left. eexists. split; [eapply Branch_lookup_fails; eassumption | reflexivity].
  - left. eexists. split; [apply Open_fails; exact Hopen | reflexivity].
Qed.

Lemma split_last_colon s :
  match split_last ":" s with
  | Some (before, after) => s = before +:+ String ":" after /\ no_colon after = true
  | None => no_colon s = true
  end.
Proof.
  induction s as [|c t IH]; cbn [split_last]; [reflexivity|].
  destruct (split_last ":" t) as [[before after]|].
  - destruct IH as [-> Hafter]. split; [reflexivity | exact Hafter].
  - destruct (Ascii.eqb c ":") eqn:Hc.
    + apply Ascii.eqb_eq in Hc. subst c. split; [reflexivity | exact IH].
    + cbn. rewrite Hc. exact IH.
Qed.

Lemma rtrim_cons c t :
  rtrim (String c t) =
  match rtrim t with
  | EmptyString => if isspace c then EmptyString else String c EmptyString
  | String c' t' => String c (String c' t')
  end.
Proof. reflexivity. Qed.

Lemma rtrim_idempotent s : rtrim (rtrim s) = rtrim s.
Proof.
  induction s as [|c t IH]; [reflexivity|]. rewrite rtrim_cons.
  destruct (rtrim t) as [|c' r] eqn:Hr.
  - destruct (isspace c) eqn:Hc; [reflexivity|]. cbn. rewrite Hc. reflexivity.
  - rewrite rtrim_cons, IH. reflexivity.
Qed.

Lemma head_char_rtrim s : rtrim s = EmptyString \/ head_char (rtrim s) = head_char s.
Proof.
  destruct s as [|c t]; [left; reflexivity|]. cbn [rtrim].
  destruct (rtrim t); [destruct (isspace c); [left | right]; reflexivity|].
  right. reflexivity.
Qed.

Lemma head_char_cstr s : head_char (cstr s) = head_char s.
Proof.
  destruct s as [|c t]; [reflexivity|]. cbn. destruct (is_nul c) eqn:Hc; [|reflexivity].
  apply is_nul_iff in Hc. subst c. reflexivity.
Qed.

Lemma skip_space_head s : isspace (head_char (skip_space s)) = false.
Proof.
  induction s as [|c t IH]; [reflexivity|]. cbn.
  destruct (isspace c) eqn:Hc; [exact IH | exact Hc].
Qed.

Lemma skip_space_fixed s : isspace (head_char s) = false -> skip_space s = s.
Proof. destruct s as [|c t]; cbn; [reflexivity|]. intros ->. reflexivity. Qed.

(** X11. The location of a load is read as follows: what comes after the
    three characters of the marker, without the white space around it, is cut
    at its last ':'.  What stands before that ':' is the repository, what
    stands after it is the branch, which therefore holds no ':'; without any
    ':' the whole is the repository and there is no branch. *)
Theorem location_is_cut_at_last_colon where_ :
  let t := rtrim (cstr (skip_space (str_from where_ 3))) in
  rtrim t = t /\ skip_space t = t /\
  match snd (split_location where_) with
  | Some branch =>
      t = fst (split_location where_) +:+ String ":" branch /\ no_colon branch = true
  | None => t = fst (split_location where_) /\ no_colon t = true
  end.
Proof.
  intros t. split; [apply rtrim_idempotent|]. split.
  - apply skip_space_fixed.
    destruct (head_char_rtrim (cstr (skip_space (str_from where_ 3)))) as [H | H].
    + subst t. rewrite H. reflexivity.
    + subst t. rewrite H, head_char_cstr. apply skip_space_head.
  - unfold split_location. cbv zeta. fold t.
    pose proof (split_last_colon t) as H.
    destruct (split_last ":" t) as [[before after]|]; cbn [fst snd].
    + exact H.
    + split; [reflexivity | exact H].
Qed.

(** On a Windows path the cut falls after the drive letter. *)
Example location_cut_examples :
  split_location "git /tmp/dives:master" = ("/tmp/dives", Some "master") /\
  split_location "git   /tmp/dives  " = ("/tmp/dives", None) /\
  split_location "git C:/dives" = ("C", Some "/dives") /\
  split_location "git /tmp/dives :a:b " = ("/tmp/dives :a", Some "b").
Proof. repeat split. Qed.

Lemma isspace_not_nul c : isspace c = true -> is_nul c = false.
Proof.
  intros H. destruct (is_nul c) eqn:Hc; [|reflexivity].
  apply is_nul_iff in Hc. subst c. discriminate H.
Qed.

Lemma skip_space_app ws s : all_space ws = true -> skip_space (ws +:+ s) = skip_space s.
Proof.
  induction ws as [|c t IH]; [reflexivity|].
  change (String c t +:+ s) with (String c (t +:+ s)). cbn [all_space skip_space].
  intros H. apply andb_prop in H as [Hc Ht]. rewrite Hc. apply IH. exact Ht.
Qed.

Lemma rtrim_cstr_all_space ws : all_space ws = true -> rtrim (cstr ws) = EmptyString.
Proof.
  induction ws as [|c t IH]; [reflexivity|]. cbn [all_space cstr]. intros H.
  apply andb_prop in H as [Hc Ht]. rewrite (isspace_not_nul _ Hc).
  rewrite rtrim_cons, (IH Ht), Hc. reflexivity.
Qed.

Lemma rtrim_cstr_app s ws :
  all_space ws = true -> rtrim (cstr (s +:+ ws)) = rtrim (cstr s).
Proof.
  intros Hws. induction s as [|c t IH]; [apply rtrim_cstr_all_space; exact Hws|].
  change (String c t +:+ ws) with (String c (t +:+ ws)). cbn [cstr].
  destruct (is_nul c); [reflexivity|]. rewrite !rtrim_cons, IH. reflexivity.
Qed.

Lemma trimmed_after_padding s ws :
  all_space ws = true ->
  rtrim (cstr (skip_space (s +:+ ws))) = rtrim (cstr (skip_space s)).
Proof.
  intros Hws. induction s as [|c t IH].
  - change (EmptyString +:+ ws) with ws.
    replace (skip_space ws) with EmptyString; [reflexivity|].
    clear -Hws. induction ws as [|c t IH]; [reflexivity|].
    cbn [all_space skip_space] in *. apply andb_prop in Hws as [Hc Ht].
    rewrite Hc. apply IH. exact Ht.
  - change (String c t +:+ ws) with (String c (t +:+ ws)). cbn [skip_space].
    destruct (isspace c); [exact IH|].
    apply (rtrim_cstr_app (String c t)). exact Hws.
Qed.

(** X12. The three characters of the marker are passed over unread, and white
    space between the marker and the location, and after the location, makes
    no difference to a load. *)
Theorem load_ignores_marker_and_padding (E : Externals) a b c a' b' c' ws1 ws2 body st :
  all_space ws1 = true ->
  all_space ws2 = true ->
  git_load_dives (String a (String b (String c (ws1 +:+ body +:+ ws2)))) st
  = git_load_dives (String a' (String b' (String c' body))) st.
Proof.
  intros H1 H2. unfold git_load_dives. cbv zeta.
  change (str_from (String a (String b (String c (ws1 +:+ body +:+ ws2)))) 3)
    with (ws1 +:+ body +:+ ws2).
  change (str_from (String a' (String b' (String c' body))) 3) with body.
  rewrite skip_space_app by exact H1.
  rewrite trimmed_after_padding by exact H2. reflexivity.
Qed.

Lemma load_ignores_marker_and_padding_witness :
  git_load_dives (E := spec_externals sample_store) "git   /tmp/dives:master  " initial_state
  = git_load_dives (E := spec_externals sample_store) "GIT/tmp/dives:master" initial_state.
Proof.
  apply (load_ignores_marker_and_padding (spec_externals sample_store)
           "g" "i" "t" "G" "I" "T" "   " "  " "/tmp/dives:master" initial_state);
    reflexivity.
Defined.

(** ** More on what names decode to *)

Section MoreDecoding.

Context {E : Externals}.

Lemma nonunique_length_month_name mm dd t1 t2 t3 c uniq :
  plain_char t1 = true -> plain_char t2 = true -> plain_char t3 = true ->
  unique_part uniq = true ->
  nonunique_length (month_name mm dd t1 t2 t3 c uniq) = 18.
Proof.
  intros H1 H2 H3 Hu. unfold month_name.
  rewrite nonunique_length_two_digits, (nonunique_length_plain "-") by reflexivity.
  rewrite nonunique_length_day_name by assumption. reflexivity.
Qed.

(** The name with the month takes the year, and only the year, from a path
    that starts 'yyyy/mm'. *)
Lemma month_name_decodes d mm' rest t1 t2 t3 c uniq :
  date_ok d = true -> clock_ok c = true ->
  0 <= mm' < 100 ->
  isdigit (head_char rest) = false ->
  plain_char t1 = true -> plain_char t2 = true -> plain_char t3 = true ->
  unique_part uniq = true ->
  validated_record (year_month_path (dyear d) mm' rest)
    (month_name (dmonth d) (dday d) t1 t2 t3 c uniq) d c.
Proof.
  intros Hd Hc Hm' Hrest H1 H2 H3 Hu.
  pose proof (nonunique_length_month_name (dmonth d) (dday d) t1 t2 t3 c uniq H1 H2 H3 Hu)
    as Hlen.
  destruct (date_bounds d Hd) as (Hy & Hm & Hdd).
  assert (Hdigits : count_digits (month_name (dmonth d) (dday d) t1 t2 t3 c uniq) = 2)
    by (apply count_digits_two; reflexivity).
  unfold validated_record. repeat split; try assumption.
  - unfold record_candidate, decode_candidate, colon_at_time.
    rewrite Hlen, Hdigits. reflexivity.
  - unfold decoded_time. rewrite Hlen.
    change (str_from (month_name (dmonth d) (dday d) t1 t2 t3 c uniq) (18 - 8))
      with (clock_name c uniq).
    rewrite sscanf_clock_name by assumption. destruct c; reflexivity.
  - unfold decoded_dive_date. rewrite Hlen. cbn [Z.ltb Z.leb Z.compare Pos.compare
      Pos.compare_cont Z.sub Z.add Z.opp Z.pos_sub Pos.pred_double].
    cbv zeta.
    rewrite path_year_month_read by assumption.
    change (str_from (month_name (dmonth d) (dday d) t1 t2 t3 c uniq) (18 - 18))
      with (two_digits (dmonth d) (String "-" (day_name (dday d) t1 t2 t3 c uniq))).
    change (str_from (month_name (dmonth d) (dday d) t1 t2 t3 c uniq) (18 - 15))
      with (two_digits (dday d) (String "-" (String t1 (String t2 (String t3 (String "-"
              (clock_name c uniq))))))).
    rewrite !atoi_two_digits by (assumption || reflexivity).
    destruct d; reflexivity.
Qed.

Lemma directory_effect_record root name d c :
  validated_record root name d c ->
  directory_effect root name = (GIT_WALK_OK, New_dive (utc_mktime (dive_tm d c))).
Proof.
  intros (Hrec & Ht & Hc & Hd & Hdate). unfold directory_effect.
  rewrite Hrec, Ht, Hc, Hd, Hdate. reflexivity.
Qed.

Lemma directory_effect_trip root name d :
  validated_trip root name d -> directory_effect root name = (GIT_WALK_OK, New_trip d).
Proof.
  intros (Htrip & Hd & Hdate). unfold directory_effect.
  destruct (record_candidate name) eqn:Hrec.
  - apply candidates_disjoint in Hrec. congruence.
  - rewrite Htrip, Hd, Hdate. reflexivity.
Qed.

Lemma directory_effect_transparent root name :
  transparent_b name = true -> directory_effect root name = (GIT_WALK_OK, Keep).
Proof.
  intros Ht. pose proof (transparent_no_colon _ Ht) as Hcolon.
  unfold directory_effect.
  replace (record_candidate name) with false
    by (unfold record_candidate; rewrite Hcolon, andb_false_r; reflexivity).
  replace (trip_candidate name) with false.
  - rewrite Ht. reflexivity.
  - unfold transparent_b in Ht. apply andb_prop in Ht as [_ Hnul].
    apply is_nul_iff in Hnul. unfold trip_candidate.
    destruct (Z.eqb_spec (count_digits name) 2) as [H2|H2]; [|reflexivity].
    rewrite H2 in Hnul. rewrite Hnul. reflexivity.
Qed.

(** A dive directory that is too short to hold the year, and a trip
    directory, under a path that does not start with year and month. *)
Lemma no_year_month_effect root name :
  path_year_month root = None ->
  nonunique_length name < 23 ->
  snd (directory_effect root name) = Keep \/ snd (directory_effect root name) = Reset.
Proof.
  intros Hpath Hlen. unfold directory_effect, decoded_dive_date, decoded_trip_date.
  rewrite Hpath. cbv zeta.
  replace (nonunique_length name <? 23) with true by (symmetry; apply Z.ltb_lt; exact Hlen).
  repeat match goal with
         | |- context [if ?b then _ else _] => destruct b
         | |- context [match ?o with Some _ => _ | None => _ end] => destruct o
         end; cbn; first [left; reflexivity | right; reflexivity].
Qed.

Lemma no_year_month_no_trip root name d :
  path_year_month root = None -> snd (directory_effect root name) <> New_trip d.
Proof.
  intros Hpath. unfold directory_effect, decoded_trip_date. rewrite Hpath.
  repeat match goal with
         | |- context [if ?b then _ else _] => destruct b
         | |- context [match ?o with Some _ => _ | None => _ end] => destruct o
         end; cbn; discriminate.
Qed.

End MoreDecoding.

(** X13. A dive directory named 'mm-nn-ddd-hh:mm:ss', under a path that
    starts 'yyyy/mm', takes the year from the path and the month from its own
    name, whatever month the path holds: when date and time pass the
    validators, the dive gets the timestamp of the year of the path and of the
    month, day and time of the name. *)
Theorem month_in_name_overrides_path (E : Externals) d mm' rest t1 t2 t3 c uniq entries st :
  date_ok d = true -> clock_ok c = true ->
  0 <= mm' < 100 ->
  isdigit (head_char rest) = false ->
  plain_char t1 = true -> plain_char t2 = true -> plain_char t3 = true ->
  unique_part uniq = true ->
  let root := year_month_path (dyear d) mm' rest in
  let name := month_name (dmonth d) (dday d) t1 t2 t3 c uniq in
  decoded_dive_date root name = Some d /\
  walk_tree_directory root (Tree name entries) st
  = (GIT_WALK_OK, with_new_dive (utc_mktime (dive_tm d c)) (reset_at_depth_8 root st)).
Proof.
  intros Hd Hc Hm' Hrest H1 H2 H3 Hu root name.
  pose proof (month_name_decodes d mm' rest t1 t2 t3 c uniq Hd Hc Hm' Hrest H1 H2 H3 Hu) as Hv.
  split; [apply Hv|]. apply walk_validated_record. exact Hv.
Qed.

Lemma month_in_name_overrides_path_witness :
  dive_table
    (snd (walk_tree_directory (E := E0) "2023/07/" (Tree "08-15-001-10:30:00" [])
            initial_state))
  = [{| when := 1692095400; number := 0; divetrip := None |}].
Proof.
  pose proof (month_in_name_overrides_path E0
                {| dyear := 2023; dmonth := 8; dday := 15 |} 7 "/" "0" "0" "1"
                {| dhour := 10; dminute := 30; dsecond := 0 |} "" [] initial_state
                eq_refl eq_refl ltac:(lia)
                eq_refl eq_refl eq_refl eq_refl eq_refl) as [_ Hwalk].
  change (month_name _ _ _ _ _ _ _) with "08-15-001-10:30:00" in Hwalk.
  change (year_month_path _ _ _) with "2023/07/" in Hwalk.
  rewrite Hwalk. reflexivity.
Defined.

(** X14. Year and month are taken from the path only together.  Under a path
    that does not start with a year, a '/' and a month (the top of the tree,
    or a year directory alone), no trip directory is accepted, and a dive
    directory is accepted only when its own name holds the year, that is, when
    it is at least 23 characters long before its unique part: 'mm-nn-ddd-
    hh:mm:ss' directly under a year directory yields no dive. *)
Theorem path_without_month_gives_nothing (E : Externals) :
  path_year_month "" = None /\
  (forall yyyy, 0 <= yyyy < 10000 -> path_year_month (four_digits yyyy "/") = None) /\
  (forall root name entries st,
      path_year_month root = None ->
      let r := walk_tree_directory root (Tree name entries) st in
      length (trip_heap (snd r)) = length (trip_heap st) /\
      (nonunique_length name < 23 ->
       fst r <> GIT_WALK_OK \/ transparent_name name) /\
      (nonunique_length name < 23 -> dive_table (snd r) = dive_table st)).
Proof.
  split; [reflexivity|]. split.
  - intros yyyy Hy. unfold path_year_month, sscanf_d_slash_d.
    rewrite scan_four_digits by (exact Hy || reflexivity). reflexivity.
  - intros root name entries st Hpath r. subst r.
    rewrite walk_tree_directory_effect. cbn [fst snd].
    split; [|split].
    + destruct (snd (directory_effect root name)) as [| | w | d] eqn:Hf; cbn [apply_effect].
      * reflexivity.
      * destruct (reset_fields root st) as (_ & -> & _). reflexivity.
      * destruct (reset_fields root st) as (_ & Ht & _).
        set (st1 := reset_at_depth_8 root st) in *.
        destruct (active_trip st1) as [t|] eqn:Hactive.
        -- rewrite (with_new_dive_in_trip _ _ _ Hactive). cbn. rewrite length_alter, Ht.
           reflexivity.
        -- rewrite (with_new_dive_no_trip _ _ Hactive). cbn. rewrite Ht. reflexivity.
      * exfalso. exact (no_year_month_no_trip root name d Hpath Hf).
    + intros Hlen. unfold directory_effect, decoded_dive_date, decoded_trip_date.
      rewrite Hpath. cbv zeta.
      replace (nonunique_length name <? 23) with true
        by (symmetry; apply Z.ltb_lt; exact Hlen).
      destruct (record_candidate name).
      { left. destruct (decoded_time name) as [c|]; [|discriminate].
        destruct (clock_ok c); discriminate. }
      destruct (trip_candidate name); [left; discriminate|].
      destruct (transparent_b name) eqn:Ht; [|left; discriminate].
      right. apply transparent_name_iff. exact Ht.
    + intros Hlen.
      destruct (no_year_month_effect root name Hpath Hlen) as [-> | ->]; cbn [apply_effect].
      * reflexivity.
      * apply reset_fields.
Qed.

Lemma path_without_month_gives_nothing_witness :
  dive_table
    (snd (walk_tree_directory (E := E0) "2023/" (Tree "07-15-001-10:30:00" []) state_in_trip))
  = dive_table state_in_trip.
Proof.
  apply (proj2 (proj2 (proj2 (proj2 (path_without_month_gives_nothing E0))
                         "2023/" "07-15-001-10:30:00" [] state_in_trip eq_refl))).
  reflexivity.
Defined.

(** ** A trip as it is laid out *)

Section TripLayout.

Context {E : Externals}.

Lemma alter_last {A} (f : A -> A) (l : list A) (x : A) :
  alter f (length l) (l ++ [x]) = l ++ [f x].
Proof. induction l as [|y l IH]; cbn; [reflexivity|]. f_equal. exact IH. Qed.

Lemma walk_entries_single (walk : git_tree_entry -> state -> Z * state) e st :
  snd (walk_entries walk [e] st) = snd (walk e st).
Proof. cbn. destruct (walk e st) as [code st']. destruct (negb (code =? 0)); reflexivity. Qed.

Lemma reset_off_depth root st : strlen root <> 8 -> reset_at_depth_8 root st = st.
Proof.
  intros H. unfold reset_at_depth_8. apply Z.eqb_neq in H. rewrite H. reflexivity.
Qed.

(** The files of a directory, met while a dive is active, leave that dive
    with the number the last of them wrote and touch nothing else but the
    diagnostics. *)
Lemma walk_files path files : forall st i,
  active_dive st = Some i ->
  let st' := snd (walk_entries (walk_entry walk_tree_cb path) (file_entry <$> files) st) in
  dive_table st' =
    alter (fun d => set_number (files_number (number d) files) d) i (dive_table st) /\
  trip_heap st' = trip_heap st /\
  active_dive st' = Some i /\
  active_trip st' = active_trip st.
Proof.
  induction files as [|f files IH]; intros st i Hi; cbv zeta.
  - cbn. repeat split; try assumption. symmetry. apply list_alter_id.
    intros [w n t]. reflexivity.
  - rewrite fmap_cons, walk_entries_cons by apply walk_entry_ok.
    change (file_entry f) with (Blob f.1 f.2). rewrite walk_entry_blob. cbn [snd].
    destruct (walk_tree_file_effect path (Blob f.1 f.2) st) as (Hd & Ht & Ha & Hg).
    rewrite Hi in Hd.
    destruct (IH (snd (walk_tree_file path (Blob f.1 f.2) st)) i) as (Hd' & Ht' & Ha' & Hg');
      [congruence|].
    rewrite Hd', Ht', Ha', Hg', Hd, Ht, Hg. repeat split.
    unfold files_number. cbn [foldl].
    change (file_entry f) with (Blob f.1 f.2).
    destruct (number_written (Blob f.1 f.2)) as [v|]; cbn [default].
    + rewrite list_alter_alter_eq. apply list_alter_ext; [|reflexivity].
      intros d _. reflexivity.
    + reflexivity.
Qed.

Lemma strlen_trip_path yyyy mm dd rest : strlen (year_month_path yyyy mm (String "/"
    (trip_name dd rest))) <> 8.
Proof.
  unfold year_month_path, four_digits, trip_name, two_digits.
  rewrite !strlen_plain
    by first [reflexivity | apply (digit_facts _ (isdigit_digit_char _))].
  pose proof (strlen_nonneg rest). lia.
Qed.

(** The dive directories of a trip, met while that trip is active. *)
Lemma walk_dive_dirs yyyy mm rest trip dirs : forall st,
  isdigit (head_char rest) = false ->
  strlen (year_month_path yyyy mm rest) <> 8 ->
  Forall (fun x => dive_dir_ok yyyy mm x = true) dirs ->
  active_trip st = Some trip ->
  let st' := snd (walk_entries (walk_entry walk_tree_cb (year_month_path yyyy mm rest))
                    (dive_dir_entry <$> dirs) st) in
  dive_table st' = dive_table st ++ (dive_of_dir yyyy mm trip <$> dirs) /\
  trip_heap st' =
    alter (fun g => {| trip_when := trip_when g;
                       trip_dives := trip_dives g ++
                                     seq (length (dive_table st)) (length dirs) |})
          trip (trip_heap st) /\
  active_trip st' = Some trip.
Proof.
  induction dirs as [|x dirs IH]; intros st Hrest Hlen Hok Htrip; cbv zeta.
  - cbn. rewrite app_nil_r. repeat split; try assumption. symmetry. apply list_alter_id.
    intros [w l]. cbn. rewrite app_nil_r. reflexivity.
  - apply Forall_cons_1 in Hok as [Hx Hok].
    unfold dive_dir_ok in Hx. rewrite !andb_true_iff in Hx.
    destruct Hx as (((((Hdate & Hclock) & H1) & H2) & H3) & Hu).
    rewrite fmap_cons, walk_entries_cons by apply walk_entry_ok.
    change (dive_dir_entry x) with (Tree (dive_dir_name x) (file_entry <$> dir_files x)).
    rewrite walk_entry_tree.
    rewrite (directory_effect_record _ _ (dive_dir_date yyyy mm x) (dir_clock x))
      by (apply (day_name_decodes (dive_dir_date yyyy mm x)); assumption).
    cbn [fst snd apply_effect]. change (GIT_WALK_OK =? 0) with true. cbv iota.
    rewrite (reset_off_depth _ _ Hlen), (with_new_dive_in_trip _ _ _ Htrip).
    match goal with
    | |- context [walk_entries (walk_entry walk_tree_cb ?p) (file_entry <$> ?fs) ?s] =>
        destruct (walk_files p fs s (length (dive_table st)) eq_refl)
          as (Hd & Ht & _ & Hg);
        set (st1 := snd (walk_entries (walk_entry walk_tree_cb p) (file_entry <$> fs) s)) in *
    end.
    cbn [dive_table trip_heap active_trip] in Hd, Ht, Hg.
    rewrite alter_last in Hd.
    destruct (IH st1 Hrest Hlen Hok Hg) as (Hd' & Ht' & Hg').
    rewrite Hd', Ht', Hg', Hd, Ht. repeat split.
    + rewrite <- app_assoc. reflexivity.
    + rewrite list_alter_alter_eq. apply list_alter_ext; [|reflexivity].
      intros g _. cbn. rewrite length_app, <- app_assoc. cbn.
      replace (length (dive_table st) + 1)%nat with (S (length (dive_table st))) by lia.
      reflexivity.
Qed.

End TripLayout.

(** X15. A trip as it is laid out loads as one trip with its dives.  For a
    tree 'yyyy/mm/nn-name' whose trip directory holds the file '00-Trip' and
    then dive directories 'nn-ddd-hh:mm:ss[~hex]' with files only, all dates
    and times passing the validators: the load adds one trip, dated by the
    path and the trip directory's day, and one dive for each dive directory,
    in order; every one of these dives is in the new trip, which lists them
    in order, has the timestamp of its directory's name and is left with the
    number that the last readable 'Dive' file with a suffix in its directory
    wrote, 0 without one.  What was loaded before is not touched. *)
Theorem trip_layout_loads (E : Externals) dt tail trip_file dirs st :
  date_ok dt = true -> no_colon tail = true ->
  Forall (fun x => dive_dir_ok (dyear dt) (dmonth dt) x = true) dirs ->
  let tree :=
    [Tree (four_digits (dyear dt) "")
       [Tree (two_digits (dmonth dt) "") [trip_dir_entry (dday dt) tail trip_file dirs]]] in
  let st' := snd (load_dives_from_tree tree st) in
  dive_table st' =
    dive_table st ++ (dive_of_dir (dyear dt) (dmonth dt) (length (trip_heap st)) <$> dirs) /\
  trip_heap st' =
    trip_heap st ++ [{| trip_when := utc_mktime (trip_tm dt);
                        trip_dives := seq (length (dive_table st)) (length dirs) |}] /\
  active_trip st' = Some (length (trip_heap st)).
Proof.
  intros Hd Htail Hok tree st'. subst tree st'.
  unfold load_dives_from_tree, git_tree_walk.
  match goal with
  | |- context [let '(_, s) := ?w in (0, s)] =>
      change (snd (let '(_, s) := w in (0, s))) with (snd w) ||
      replace (snd (let '(_, s) := w in (0, s))) with (snd w) by (destruct w; reflexivity)
  end.
  rewrite walk_entries_single, walk_entry_tree.
  rewrite directory_effect_transparent
    by (unfold transparent_b; rewrite count_digits_four by reflexivity; reflexivity).
  cbn [fst snd apply_effect]. change (GIT_WALK_OK =? 0) with true. cbv iota.
  rewrite walk_entries_single, walk_entry_tree.
  rewrite directory_effect_transparent
    by (unfold transparent_b; rewrite count_digits_two by reflexivity; reflexivity).
  cbn [fst snd apply_effect]. change (GIT_WALK_OK =? 0) with true. cbv iota.
  change (("" +:+ four_digits (dyear dt) "" +:+ "/") +:+ two_digits (dmonth dt) "" +:+ "/")
    with (year_month_path (dyear dt) (dmonth dt) "/").
  rewrite walk_entries_single. unfold trip_dir_entry. rewrite walk_entry_tree.
  rewrite (directory_effect_trip _ _ dt) by (apply trip_name_decodes; auto).
  cbn [fst snd apply_effect]. change (GIT_WALK_OK =? 0) with true. cbv iota.
  change (year_month_path (dyear dt) (dmonth dt) "/" +:+ trip_name (dday dt) tail +:+ "/")
    with (year_month_path (dyear dt) (dmonth dt)
            (String "/" (trip_name (dday dt) (tail +:+ "/")))).
  rewrite walk_entries_cons by apply walk_entry_ok.
  rewrite walk_entry_blob. cbn [snd].
  destruct (with_new_trip_fields dt st) as (Hd0 & Ht0 & _ & Hg0 & _).
  match goal with
  | |- context [walk_tree_file ?p ?e ?s] =>
      destruct (walk_tree_file_effect p e s) as (Hd1 & Ht1 & _ & Hg1);
      set (st1 := snd (walk_tree_file p e s)) in *
  end.
  replace (number_written (Blob "00-Trip" trip_file)) with (@None Z) in Hd1
    by (destruct trip_file; reflexivity).
  assert (Hd1' : dive_table st1 = dive_table st)
    by (rewrite Hd1, Hd0; destruct (active_dive (with_new_trip dt st)); reflexivity).
  rewrite Hg0 in Hg1. rewrite Ht0 in Ht1.
  destruct (walk_dive_dirs (dyear dt) (dmonth dt) (String "/" (trip_name (dday dt)
              (tail +:+ "/"))) (length (trip_heap st)) dirs st1 eq_refl
              (strlen_trip_path _ _ _ _) Hok Hg1) as (Hd2 & Ht2 & Hg2).
  rewrite Hd2, Ht2, Hg2, Hd1', Ht1, alter_last. repeat split.
Qed.

Lemma trip_layout_loads_witness :
  let tree :=
    [Tree "2023" [Tree "07" [Tree "13-someTrip"
       [Blob "00-Trip" (Some "");
        Tree "14-001-10:00:00" [Blob "Dive-7" (Some ""); Blob "Divecomputer" (Some "")];
        Tree "15-002-11:30:00~1a2b" [Blob "Dive-8" (Some "")]]]]] in
  let st' := snd (load_dives_from_tree (E := E0) tree initial_state) in
  dive_table st' =
    [{| when := 1689328800; number := 7; divetrip := Some 0%nat |};
     {| when := 1689420600; number := 8; divetrip := Some 0%nat |}] /\
  trip_heap st' = [{| trip_when := 1689206400; trip_dives := [0; 1]%nat |}].
Proof.
  pose proof (trip_layout_loads E0 {| dyear := 2023; dmonth := 7; dday := 13 |} "someTrip"
                (Some "")
                [{| dir_day := 14; dir_tag := ("0", "0", "1")%char;
                    dir_clock := {| dhour := 10; dminute := 0; dsecond := 0 |};
                    dir_unique := "";
                    dir_files := [("Dive-7", Some ""); ("Divecomputer", Some "")] |};
                 {| dir_day := 15; dir_tag := ("0", "0", "2")%char;
                    dir_clock := {| dhour := 11; dminute := 30; dsecond := 0 |};
                    dir_unique := "~1a2b";
                    dir_files := [("Dive-8", Some "")] |}]
                initial_state eq_refl eq_refl
                ltac:(repeat constructor)) as (Hd & Ht & _).
  split; [exact Hd | exact Ht].
Defined.

(** ** What a walk keeps of the links between dives and trips *)

Section Links.

Context {E : Externals}.

Lemma consistent_file path entry st :
  trips_consistent st -> trips_consistent (snd (walk_tree_file path entry st)).
Proof.
  destruct (walk_tree_file_effect path entry st) as (Hd & Ht & _ & _).
  unfold trips_consistent. rewrite Hd, Ht. clear Hd Ht.
  destruct (active_dive st) as [i|]; [|trivial].
  destruct (number_written entry) as [v|]; [|trivial].
  intros [H1 H2]. split.
  - intros j d t Hj Hdt. destruct (decide (j = i)) as [->|Hne].
    + rewrite list_lookup_alter_eq in Hj.
      destruct (dive_table st !! i) as [d0|] eqn:H0; [|discriminate].
      cbn in Hj. injection Hj as <-. exact (H1 i d0 t H0 Hdt).
    + rewrite list_lookup_alter_ne in Hj by congruence. eauto.
  - intros t g j Hg Hj. destruct (H2 t g j Hg Hj) as (d & Hd & Hdt).
    destruct (decide (j = i)) as [->|Hne].
    + exists (set_number v d). split; [|exact Hdt].
      rewrite list_lookup_alter_eq, Hd. reflexivity.
    + exists d. rewrite list_lookup_alter_ne by congruence. auto.
Qed.

Lemma consistent_reset root st :
  trips_consistent st -> trips_consistent (reset_at_depth_8 root st).
Proof.
  unfold trips_consistent. destruct (reset_fields root st) as (-> & -> & _). trivial.
Qed.

Lemma consistent_new_trip d st :
  trips_consistent st -> trips_consistent (with_new_trip d st).
Proof.
  destruct (with_new_trip_fields d st) as (Hd & Ht & _).
  unfold trips_consistent. rewrite Hd, Ht. clear Hd Ht. intros [H1 H2]. split.
  - intros i x t Hi Hx. destruct (H1 i x t Hi Hx) as (g & Hg & Hin).
    exists g. split; [apply lookup_app_l_Some; exact Hg | exact Hin].
  - intros t g i Hg Hin. apply lookup_snoc_Some in Hg as [[_ Hg] | [_ <-]].
    + eauto.
    + cbn in Hin. apply elem_of_nil in Hin. contradiction.
Qed.

Lemma consistent_new_dive w st :
  slots_in_range st -> trips_consistent st -> trips_consistent (with_new_dive w st).
Proof.
  intros [_ Hslot] [H1 H2]. destruct (active_trip st) as [t0|] eqn:Hactive.
  - rewrite (with_new_dive_in_trip _ _ _ Hactive). specialize (Hslot t0 eq_refl).
    unfold trips_consistent. cbn [dive_table trip_heap]. split.
    + intros i x t Hi Hx. apply lookup_snoc_Some in Hi as [[_ Hi] | [-> <-]].
      * destruct (H1 _ _ _ Hi Hx) as (g & Hg & Hin).
        destruct (decide (t = t0)) as [->|Hne].
        -- eexists. rewrite list_lookup_alter_eq, Hg. split; [reflexivity|].
           cbn. apply elem_of_app. left. exact Hin.
        -- exists g. rewrite list_lookup_alter_ne by congruence. auto.
      * cbn in Hx. injection Hx as <-.
        destruct (lookup_lt_is_Some_2 _ _ Hslot) as [g Hg].
        eexists. rewrite list_lookup_alter_eq, Hg. split; [reflexivity|].
        cbn. apply elem_of_app. right. apply list_elem_of_singleton. reflexivity.
    + intros t g i Hg Hin. destruct (decide (t = t0)) as [->|Hne].
      * rewrite list_lookup_alter_eq in Hg.
        destruct (trip_heap st !! t0) as [g0|] eqn:Hg0; [|discriminate].
        cbn in Hg. injection Hg as <-. cbn in Hin.
        apply elem_of_app in Hin as [Hin|Hin].
        -- destruct (H2 _ _ _ Hg0 Hin) as (d & Hd & Hdt).
           exists d. split; [apply lookup_app_l_Some; exact Hd | exact Hdt].
        -- apply list_elem_of_singleton in Hin. subst i.
           eexists. split; [apply lookup_snoc_Some; right; split; reflexivity | reflexivity].
      * rewrite list_lookup_alter_ne in Hg by congruence.
        destruct (H2 _ _ _ Hg Hin) as (d & Hd & Hdt).
        exists d. split; [apply lookup_app_l_Some; exact Hd | exact Hdt].
  - rewrite (with_new_dive_no_trip _ _ Hactive).
    unfold trips_consistent. cbn [dive_table trip_heap]. split.
    + intros i x t Hi Hx. apply lookup_snoc_Some in Hi as [[_ Hi] | [_ <-]].
      * eauto.
      * discriminate Hx.
    + intros t g i Hg Hin. destruct (H2 _ _ _ Hg Hin) as (d & Hd & Hdt).
      exists d. split; [apply lookup_app_l_Some; exact Hd | exact Hdt].
Qed.

Lemma consistent_callback path entry st :
  slots_in_range st /\ trips_consistent st ->
  slots_in_range (snd (walk_tree_cb path entry st)) /\
  trips_consistent (snd (walk_tree_cb path entry st)).
Proof.
  intros [Hslots H]. split; [apply slots_in_range_callback; exact Hslots|].
  destruct entry as [name blob | name entries].
  - rewrite walk_tree_cb_blob. cbn [snd]. apply consistent_file. exact H.
  - cbn [walk_tree_cb]. rewrite walk_tree_directory_effect. cbn [snd].
    destruct (snd (directory_effect path name)) as [| | w | d]; cbn [apply_effect].
    + exact H.
    + apply consistent_reset. exact H.
    + apply consistent_new_dive; [|apply consistent_reset; exact H].
      exact (slots_in_range_effect path Reset st Hslots).
    + apply consistent_new_trip. exact H.
Qed.


End Links.

(** X16. The links between dives and trips stay consistent through every
    walk.  When each slot that is set points into its table, and every dive
    that names a trip is listed by that trip and every dive a trip lists names
    that trip, the same holds after the load of any tree: a dive is attached
    to the trip that lists it, and to no other. *)
Theorem walk_keeps_trips_consistent (E : Externals) tree st :
  slots_in_range st -> trips_consistent st ->
  slots_in_range (snd (load_dives_from_tree tree st)) /\
  trips_consistent (snd (load_dives_from_tree tree st)).
Proof.
  intros Hslots H.
  apply (preorder_tree
           (fun s s' => slots_in_range s /\ trips_consistent s ->
                        slots_in_range s' /\ trips_consistent s')).
  - intros s Hs. exact Hs.
  - intros s1 s2 s3 H12 H23 Hs. apply H23, H12, Hs.
  - intros path entry s. apply consistent_callback.
  - split; assumption.
Qed.

Lemma walk_keeps_trips_consistent_witness :
  slots_in_range (snd (load_dives_from_tree (E := E0) tree_with_top_level_dive initial_state)) /\
  trips_consistent (snd (load_dives_from_tree (E := E0) tree_with_top_level_dive initial_state)).
Proof.
  apply (walk_keeps_trips_consistent E0 tree_with_top_level_dive initial_state).
  - split; discriminate.
  - split; intros ? ? ? H; discriminate H.
Defined.


